(** * The broadcasttools input plugin

    A shallow embedding of [plugins/inputs/broadcasttools/broadcasttools.go]
    and of the parts of the Go standard library it calls, followed by the
    properties of the device session protocol (Dial / Gather / Close), of the
    field extraction loop and of the gather orchestrator.

    Go strings are byte sequences: they are modelled by [string], one [ascii]
    per byte.  Go's [int] is taken to be 64 bits wide.  A dynamic value of
    type [interface{}] is a [value].  A Go map is a [gmap]; the order in which
    a [range] statement enumerates it is supplied by the environment. *)

From Stdlib Require Import ZArith String Ascii List Lia Floats.
From Stdlib Require Import DecimalString DecimalN.
From stdpp Require Import base option list gmap strings.

Set Warnings "-register-all".

Local Open Scope string_scope.
Local Open Scope Z_scope.

(** ** Results of Go calls *)

(** An [error] value is represented by its message. *)
Definition error := string.

(** A call either returns or panics (a run-time panic is not an [error]
    return: nothing in the plugin recovers from it). *)
Inductive outcome (A : Type) : Type :=
| Ret (a : A)
| Panic (msg : string).
Arguments Ret {A} a.
Arguments Panic {A} msg.

(** Code that talks to the network threads a clock: the number of requests
    handed to the transport so far. *)
Definition M (A : Type) : Type := nat -> outcome (A * nat).

Definition ret {A} (a : A) : M A := fun t => Ret (a, t).

Definition bind {A B} (m : M A) (f : A -> M B) : M B :=
  fun t => match m t with
           | Ret (a, t') => f a t'
           | Panic msg => Panic msg
           end.

Definition panic {A} (msg : string) : M A := fun _ => Panic msg.

Notation "'let*' x ':=' m 'in' k" := (bind m (fun x => k))
  (at level 10, x name, m at level 100, k at level 200).

(** ** Bytes *)

Definition byte_val (a : ascii) : Z := Z.of_N (N_of_ascii a).

(** Conversion [byte(x)]: truncation to the low eight bits. *)
Definition byte_of (z : Z) : ascii := ascii_of_N (Z.to_N (z mod 256)).

Definition in_range (lo hi : string) (c : ascii) : bool :=
  match lo, hi with
  | String l _, String h _ => (byte_val l <=? byte_val c) && (byte_val c <=? byte_val h)
  | _, _ => false
  end.

Definition is_digit (c : ascii) : bool := in_range "0" "9" c.
Definition is_upper (c : ascii) : bool := in_range "A" "Z" c.
Definition is_lower (c : ascii) : bool := in_range "a" "z" c.

Fixpoint string_forallb (p : ascii -> bool) (s : string) : bool :=
  match s with
  | EmptyString => true
  | String c s' => p c && string_forallb p s'
  end.

Fixpoint string_existsb (p : ascii -> bool) (s : string) : bool :=
  match s with
  | EmptyString => false
  | String c s' => p c || string_existsb p s'
  end.

Fixpoint string_map (f : ascii -> ascii) (s : string) : string :=
  match s with
  | EmptyString => EmptyString
  | String c s' => String (f c) (string_map f s')
  end.

Fixpoint string_drop (n : nat) (s : string) : string :=
  match n, s with
  | O, _ => s
  | S n', String _ s' => string_drop n' s'
  | S _, EmptyString => EmptyString
  end.

Fixpoint string_take (n : nat) (s : string) : string :=
  match n, s with
  | S n', String c s' => String c (string_take n' s')
  | _, _ => EmptyString
  end.

(** ** Package unicode/utf8 *)

Module utf8.

Definition RuneError : Z := 0xFFFD.
Definition RuneSelf : Z := 0x80.
Definition MaxRune : Z := 0x10FFFF.
Definition surrogateMin : Z := 0xD800.
Definition surrogateMax : Z := 0xDFFF.
Definition rune1Max : Z := 0x7F.
Definition rune2Max : Z := 0x7FF.
Definition rune3Max : Z := 0xFFFF.

Definition t2 : Z := 0xC0.
Definition t3 : Z := 0xE0.
Definition t4 : Z := 0xF0.
Definition tx : Z := 0x80.
Definition maskx : Z := 0x3F.
Definition mask2 : Z := 0x1F.
Definition mask3 : Z := 0x0F.
Definition mask4 : Z := 0x07.
Definition locb : Z := 0x80.
Definition hicb : Z := 0xBF.

(** A code point that UTF-8 can encode: in range and not a surrogate half. *)
Definition ValidRune (r : Z) : bool :=
  ((0 <=? r) && (r <? surrogateMin)) || ((surrogateMax <? r) && (r <=? MaxRune)).

(** Continuation byte [tx | byte(r>>k)&maskx]. *)
Definition cont (r : Z) (k : Z) : ascii :=
  byte_of (Z.lor tx (Z.land (Z.shiftr r k mod 256) maskx)).

Definition encode3 (r : Z) : string :=
  String (byte_of (Z.lor t3 (Z.shiftr r 12 mod 256)))
    (String (cont r 6) (String (cont r 0) EmptyString)).

Definition encode4 (r : Z) : string :=
  String (byte_of (Z.lor t4 (Z.shiftr r 18 mod 256)))
    (String (cont r 12) (String (cont r 6) (String (cont r 0) EmptyString))).

(** [EncodeRune]: the bytes written for rune [r]; the switch is on
    [uint32(r)], so negative and out-of-range runes and surrogate halves are
    written as [RuneError]. *)
Definition EncodeRune (r : Z) : string :=
  let i := r mod 2 ^ 32 in
  if i <=? rune1Max then String (byte_of r) EmptyString
  else if i <=? rune2Max then
    String (byte_of (Z.lor t2 (Z.shiftr r 6 mod 256))) (String (cont r 0) EmptyString)
  else if (MaxRune <? i) || ((surrogateMin <=? i) && (i <=? surrogateMax)) then
    encode3 RuneError
  else if i <=? rune3Max then encode3 r
  else encode4 r.

(** The table [first] with the accept range it selects for the second byte. *)
Inductive first_info : Type :=
| as_ascii
| xx
| lead (sz : nat) (lo hi : Z).

Definition first (b : Z) : first_info :=
  if b <? 0x80 then as_ascii
  else if b <? 0xC2 then xx
  else if b <? 0xE0 then lead 2 locb hicb
  else if b =? 0xE0 then lead 3 0xA0 hicb
  else if b <? 0xED then lead 3 locb hicb
  else if b =? 0xED then lead 3 locb 0x9F
  else if b <? 0xF0 then lead 3 locb hicb
  else if b =? 0xF0 then lead 4 0x90 hicb
  else if b <? 0xF4 then lead 4 locb hicb
  else if b =? 0xF4 then lead 4 locb 0x8F
  else xx.

Definition is_cont (b : Z) : bool := (locb <=? b) && (b <=? hicb).

(** [DecodeRuneInString]: the first rune of [s] and its width in bytes; an
    invalid or truncated encoding gives [(RuneError, 1)], the empty string
    [(RuneError, 0)]. *)
Definition DecodeRuneInString (s : string) : Z * nat :=
  match s with
  | EmptyString => (RuneError, 0%nat)
  | String c0 r0 =>
    let s0 := byte_val c0 in
    match first s0 with
    | as_ascii => (s0, 1%nat)
    | xx => (RuneError, 1%nat)
    | lead sz lo hi =>
      if (String.length s <? sz)%nat then (RuneError, 1%nat) else
      match r0 with
      | EmptyString => (RuneError, 1%nat)
      | String c1 r1 =>
        let s1 := byte_val c1 in
        if (s1 <? lo) || (hi <? s1) then (RuneError, 1%nat) else
        if (sz <=? 2)%nat then
          (Z.lor (Z.shiftl (Z.land s0 mask2) 6) (Z.land s1 maskx), 2%nat)
        else
        match r1 with
        | EmptyString => (RuneError, 1%nat)
        | String c2 r2 =>
          let s2 := byte_val c2 in
          if negb (is_cont s2) then (RuneError, 1%nat) else
          if (sz <=? 3)%nat then
            (Z.lor (Z.lor (Z.shiftl (Z.land s0 mask3) 12)
                          (Z.shiftl (Z.land s1 maskx) 6))
                   (Z.land s2 maskx), 3%nat)
          else
          match r2 with
          | EmptyString => (RuneError, 1%nat)
          | String c3 _ =>
            let s3 := byte_val c3 in
            if negb (is_cont s3) then (RuneError, 1%nat) else
            (Z.lor (Z.lor (Z.lor (Z.shiftl (Z.land s0 mask4) 18)
                                 (Z.shiftl (Z.land s1 maskx) 12))
                          (Z.shiftl (Z.land s2 maskx) 6))
                   (Z.land s3 maskx), 4%nat)
          end
        end
      end
    end
  end.

(** [for _, c := range s]: the runes of [s] in order.  [skip] counts the
    bytes of the current rune that are still to be passed over. *)
Fixpoint range_from (skip : nat) (s : string) : list Z :=
  match s with
  | EmptyString => []
  | String _ s' =>
    match skip with
    | S k => range_from k s'
    | O => let '(r, w) := DecodeRuneInString s in r :: range_from (Nat.pred w) s'
    end
  end.

Definition range (s : string) : list Z := range_from 0 s.

End utf8.

(** ** Package unicode *)

Module unicode.

Definition MaxASCII : Z := 0x7F.

(** [unicode.ToLower]: ASCII is handled in place; every other rune is looked
    up in the case tables, [To(LowerCase, r)], here the function [tbl]. *)
Definition ToLower (tbl : Z -> Z) (r : Z) : Z :=
  if r <=? MaxASCII then
    if (65 <=? r) && (r <=? 90) then r + 32 else r
  else tbl r.

End unicode.

(** ** Package strings *)

Module strings.

Fixpoint HasPrefix (s p : string) : bool :=
  match p, s with
  | EmptyString, _ => true
  | String a p', String b s' => Ascii.eqb a b && HasPrefix s' p'
  | String _ _, EmptyString => false
  end.

Definition HasSuffix (s suffix : string) : bool :=
  (String.length suffix <=? String.length s)%nat &&
  String.eqb (string_drop (String.length s - String.length suffix) s) suffix.

Definition TrimSuffix (s suffix : string) : string :=
  if HasSuffix s suffix then string_take (String.length s - String.length suffix) s
  else s.

(** [Replace(s, old, new, -1)] for a non-empty [old]: every non-overlapping
    instance of [old], scanning from the left, is replaced.  [skip] counts the
    bytes of a matched instance still to be passed over. *)
Fixpoint replace_from (old new : string) (skip : nat) (s : string) : string :=
  match s with
  | EmptyString => EmptyString
  | String c s' =>
    match skip with
    | S k => replace_from old new k s'
    | O =>
      if HasPrefix s old then new ++ replace_from old new (Nat.pred (String.length old)) s'
      else String c (replace_from old new 0 s')
    end
  end.

Definition ReplaceAll (s old new : string) : string := replace_from old new 0 s.

(** The runes written to the builder of [Map]: the image of each rune,
    encoded, a negative image being dropped. *)
Fixpoint write_runes (mapping : Z -> Z) (rs : list Z) : string :=
  match rs with
  | [] => EmptyString
  | c :: rest =>
    let r := mapping c in
    (if 0 <=? r then utf8.EncodeRune r else EmptyString) ++ write_runes mapping rest
  end.

(** [Map(mapping, s)]: every rune of [s] is replaced by its image, a negative
    image dropping the rune; an invalid byte is read as [RuneError]. *)
Definition Map (mapping : Z -> Z) (s : string) : string :=
  write_runes mapping (utf8.range s).

Definition ascii_lower (c : ascii) : ascii :=
  if is_upper c then byte_of (byte_val c + 32) else c.

(** [ToLower]: an ASCII-only string is lower-cased byte by byte (and returned
    as it is when it has no upper-case letter); any other string goes through
    [Map(unicode.ToLower, s)]. *)
Definition ToLower (tbl : Z -> Z) (s : string) : string :=
  let isASCII := string_forallb (fun c => byte_val c <? utf8.RuneSelf) s in
  let hasUpper := string_existsb is_upper s in
  if isASCII then
    if hasUpper then string_map ascii_lower s else s
  else Map (unicode.ToLower tbl) s.

End strings.

(** ** Package strconv *)

Module strconv.

Definition intSize : Z := 64.

Definition ErrSyntax : error := "invalid syntax".
Definition ErrRange : error := "value out of range".

Definition maxUint64 : Z := 2 ^ 64 - 1.

(** What [ParseUint(s, 10, 0)] makes of a text: a value, or one of its two
    errors. *)
Inductive parsed : Type :=
| Value (n : Z)
| Syntax
| Range.

(** The loop of [ParseUint] over the bytes, [n] being the value read so far.
    A byte that is not a digit is a syntax error.  A digit that takes the value
    past the largest [uint64] is a range error, returned at that digit: the
    bytes after it are not looked at. *)
Fixpoint ParseUint_from (n : Z) (s : string) : parsed :=
  match s with
  | EmptyString => Value n
  | String c s' =>
    if is_digit c then
      let d := byte_val c - 48 in
      let cutoff := maxUint64 / 10 + 1 in
      if cutoff <=? n then Range
      else
        let n' := n * 10 in
        let n1 := (n' + d) mod 2 ^ 64 in
        if (n1 <? n') || (maxUint64 <? n1) then Range
        else ParseUint_from n1 s'
    else Syntax
  end.

Definition ParseUint (s : string) : parsed :=
  match s with
  | EmptyString => Syntax
  | _ => ParseUint_from 0 s
  end.

(** What [ParseInt(s, 10, 0)] does after its call of [ParseUint], [neg] telling
    whether it cut a minus sign off.  A syntax error comes with 0.  After a
    range error [ParseUint] has handed back the largest [uint64], and the
    checks against the range of [int] go on with that. *)
Definition ParseInt_signed (neg : bool) (r : parsed) : Z * option error :=
  match r with
  | Syntax => (0, Some ErrSyntax)
  | _ =>
    let un := match r with Value n => n | _ => maxUint64 end in
    let cutoff := 2 ^ (intSize - 1) in
    if negb neg && (cutoff <=? un) then (cutoff - 1, Some ErrRange)
    else if neg && (cutoff <? un) then (- cutoff, Some ErrRange)
    else (if neg then - un else un, None)
  end.

(** [Atoi(s)] returns a value and an error: [ParseInt(s, 10, 0)] with the
    error's wrapping left out.  (The short cut that [Atoi] takes on a text of
    fewer than 19 bytes gives the same value and the same kind of error.) *)
Definition Atoi (s : string) : Z * option error :=
  let '(neg, body) :=
    match s with
    | String "+" s' => (false, s')
    | String "-" s' => (true, s')
    | _ => (false, s)
    end in
  ParseInt_signed neg (ParseUint body).

End strconv.

(** ** Package fmt *)

Module fmt.

Definition dec (n : Z) : string := NilZero.string_of_uint (N.to_uint (Z.to_N n)).

(** The verb [%d]. *)
Definition d (n : Z) : string :=
  if n <? 0 then "-" ++ dec (- n) else dec n.

(** The verb [%02d]: zero padding up to width two, the sign counted in. *)
Definition d02 (n : Z) : string :=
  if n <? 0 then "-" ++ dec (- n)
  else if n <? 10 then "0" ++ dec n
  else dec n.

End fmt.

(** ** Package regexp *)

Module regexp.

(** The five expressions of the plugin have one shape, [^<literal>(\d+)$]:
    the literal, then one or more ASCII digits up to the end of the text, the
    digits being the only capture group.  A compiled expression of that shape
    is represented by its literal. *)
Record Regexp : Type := MustCompile_lit_digits { literal : string }.

(** [FindStringSubmatch]: [nil] when the text does not match, otherwise the
    whole match followed by the text of the capture group. *)
Definition FindStringSubmatch (re : Regexp) (s : string) : list string :=
  if strings.HasPrefix s (literal re) then
    let rest := string_drop (String.length (literal re)) s in
    match rest with
    | EmptyString => []
    | _ => if string_forallb is_digit rest then [s; rest] else []
    end
  else [].

Definition MatchString (re : Regexp) (s : string) : bool :=
  match FindStringSubmatch re s with
  | [] => false
  | _ => true
  end.

End regexp.

(** ** Package net/url *)

Module url.

Inductive encoding : Type :=
| encodePath
| encodeHost
| encodeUserPassword
| encodeQueryComponent
| encodeFragment.

Definition is_alnum (c : ascii) : bool := is_lower c || is_upper c || is_digit c.

Definition one_of (set : string) (c : ascii) : bool :=
  string_existsb (Ascii.eqb c) set.

(** [shouldEscape]: whether byte [c] is percent-escaped in the given part of
    a URL. *)
Definition shouldEscape (c : ascii) (mode : encoding) : bool :=
  if is_alnum c then false
  else if match mode with
          | encodeHost => one_of "!$&'()*+,;=:[]<>" c || (byte_val c =? 34)
          | _ => false
          end
  then false
  else if one_of "-_.~" c then false
  else if one_of "$&+,/:;=?@" c then
    match mode with
    | encodePath => Ascii.eqb c "?"
    | encodeUserPassword => one_of "@/?:" c
    | encodeQueryComponent => true
    | encodeFragment => false
    | encodeHost => true
    end
  else if match mode with encodeFragment => one_of "!()*" c | _ => false end
  then false
  else true.

Definition upperhex (n : Z) : ascii :=
  if n <? 10 then byte_of (48 + n) else byte_of (65 + (n - 10)).

Fixpoint escape (s : string) (mode : encoding) : string :=
  match s with
  | EmptyString => EmptyString
  | String c s' =>
    if shouldEscape c mode then
      if Ascii.eqb c " " && match mode with encodeQueryComponent => true | _ => false end
      then String "+" (escape s' mode)
      else String "%" (String (upperhex (Z.shiftr (byte_val c) 4))
                        (String (upperhex (Z.land (byte_val c) 15)) (escape s' mode)))
    else String c (escape s' mode)
  end.

Definition ishex (c : ascii) : bool :=
  is_digit c || in_range "a" "f" c || in_range "A" "F" c.

Definition unhex (c : ascii) : Z :=
  if is_digit c then byte_val c - 48
  else if in_range "a" "f" c then byte_val c - 97 + 10
  else if in_range "A" "F" c then byte_val c - 65 + 10
  else 0.

(** [unescape(s, encodePath)]: percent escapes are decoded, [+] is kept; a
    malformed escape is an error. *)
Fixpoint unescape_path (s : string) : option string :=
  match s with
  | EmptyString => Some EmptyString
  | String c s' =>
    if Ascii.eqb c "%" then
      match s' with
      | String h (String l s'') =>
        if ishex h && ishex l then
          match unescape_path s'' with
          | Some r => Some (String (byte_of (Z.lor (Z.shiftl (unhex h) 4) (unhex l))) r)
          | None => None
          end
        else None
      | _ => None
      end
    else
      match unescape_path s' with
      | Some r => Some (String c r)
      | None => None
      end
  end.

(** [validEncoded(s, encodePath)]. *)
Definition validEncoded_path (s : string) : bool :=
  string_forallb
    (fun c => one_of "!$&'()*+,;=:@[]%" c || negb (shouldEscape c encodePath)) s.

Record Userinfo : Type := {
  username : string;
  password : string;
  passwordSet : bool
}.

Record URL : Type := {
  Scheme : string;
  Opaque : string;
  User : option Userinfo;
  Host : string;
  Path : string;
  RawPath : string;
  ForceQuery : bool;
  RawQuery : string;
  Fragment : string
}.

(** The assignment [u.RawPath = p] on a copy of a URL. *)
Definition set_RawPath (u : URL) (p : string) : URL :=
  {| Scheme := Scheme u; Opaque := Opaque u; User := User u; Host := Host u;
     Path := Path u; RawPath := p; ForceQuery := ForceQuery u;
     RawQuery := RawQuery u; Fragment := Fragment u |}.

(** [EscapedPath]: [RawPath] is used only when it is a valid encoding of
    [Path]; in every other case the escaped form is computed from [Path] and
    [RawPath] is ignored. *)
Definition EscapedPath (u : URL) : string :=
  if negb (String.eqb (RawPath u) "") && validEncoded_path (RawPath u) &&
     match unescape_path (RawPath u) with
     | Some p => String.eqb p (Path u)
     | None => false
     end
  then RawPath u
  else if String.eqb (Path u) "*" then "*"
  else escape (Path u) encodePath.

Definition Userinfo_String (ui : Userinfo) : string :=
  escape (username ui) encodeUserPassword ++
  (if passwordSet ui then ":" ++ escape (password ui) encodeUserPassword else "").

(** The first path segment holds a colon (RFC 3986, section 4.2). *)
Fixpoint colon_in_first_segment (p : string) : bool :=
  match p with
  | EmptyString => false
  | String c p' =>
    if Ascii.eqb c ":" then true
    else if Ascii.eqb c "/" then false
    else colon_in_first_segment p'
  end.

(** [URL.String]. *)
Definition String_ (u : URL) : string :=
  let buf := if String.eqb (Scheme u) "" then "" else Scheme u ++ ":" in
  let buf :=
    if negb (String.eqb (Opaque u) "") then buf ++ Opaque u
    else
      let buf :=
        if negb (String.eqb (Scheme u) "") || negb (String.eqb (Host u) "") ||
           match User u with Some _ => true | None => false end
        then
          let buf :=
            if negb (String.eqb (Host u) "") || negb (String.eqb (Path u) "") ||
               match User u with Some _ => true | None => false end
            then buf ++ "//" else buf in
          let buf :=
            match User u with
            | Some ui => buf ++ Userinfo_String ui ++ "@"
            | None => buf
            end in
          if negb (String.eqb (Host u) "") then buf ++ escape (Host u) encodeHost
          else buf
        else buf in
      let path := EscapedPath u in
      let buf :=
        match path with
        | String c _ =>
          if negb (Ascii.eqb c "/") && negb (String.eqb (Host u) "")
          then buf ++ "/" else buf
        | EmptyString => buf
        end in
      let buf :=
        if String.eqb buf "" && colon_in_first_segment path then buf ++ "./"
        else buf in
      buf ++ path in
  let buf :=
    if ForceQuery u || negb (String.eqb (RawQuery u) "")
    then buf ++ "?" ++ RawQuery u else buf in
  if negb (String.eqb (Fragment u) "")
  then buf ++ "#" ++ escape (Fragment u) encodeFragment
  else buf.

(** [Values.Encode] applied to the pairs of a form, given in the order of
    their keys (the order in which [Encode] writes them). *)
Fixpoint Values_Encode (v : list (string * string)) : string :=
  match v with
  | [] => ""
  | [(k, x)] => escape k encodeQueryComponent ++ "=" ++ escape x encodeQueryComponent
  | (k, x) :: rest =>
    escape k encodeQueryComponent ++ "=" ++ escape x encodeQueryComponent ++ "&" ++
    Values_Encode rest
  end.

End url.

(** ** Dynamic values *)

(** A value of type [interface{}]: what [encoding/json] decodes into (nil,
    bool, float64, string, slice, map) and the [int] produced by the
    temperature rule. *)
Inductive value : Type :=
| Nil
| Bool (b : bool)
| Float64 (f : float)
| Str (s : string)
| Int (n : Z)
| Slice (l : list value)
| MapV (m : gmap string value).

(** The type assertion [x.(string)]. *)
Definition as_string (x : value) : outcome string :=
  match x with
  | Str s => Ret s
  | Nil => Panic "interface conversion: interface {} is nil, not string"
  | _ => Panic "interface conversion: interface {} is not string"
  end.

(** The type assertion [x.(map[string]interface{})]. *)
Definition as_map (x : value) : outcome (gmap string value) :=
  match x with
  | MapV m => Ret m
  | Nil => Panic "interface conversion: interface {} is nil, not map[string]interface {}"
  | _ => Panic "interface conversion: interface {} is not map[string]interface {}"
  end.

(** The index expression [m[k]] on a [map[string]interface{}]: the zero
    value, nil, when the key is absent. *)
Definition map_index (m : gmap string value) (k : string) : value :=
  match m !! k with
  | Some v => v
  | None => Nil
  end.

(** A call that returns [(T, error)]. *)
Inductive result (A : Type) : Type :=
| Ok (a : A)
| Err (e : error).
Arguments Ok {A} a.
Arguments Err {A} e.

(** ** Package net/http *)

Module http.

Definition MethodGet : string := "GET".
Definition MethodPost : string := "POST".
Definition StatusOK : Z := 200.

Record Cookie : Type := { Name : string; Value : string }.

(** A request as handed to the transport.  [URL] is the text given to
    [NewRequest] (which parses it again); [ReqCookies] are the cookies added
    by [AddCookie]. *)
Record Request : Type := {
  Method : string;
  URL : string;
  Header : gmap string string;
  ReqCookies : list Cookie;
  ReqBody : option string
}.

(** What a JSON decoder finds in a response body: a first JSON value, or
    text that does not decode. *)
Inductive body : Type :=
| NotJSON (err : error)
| JSON (v : value).

(** A response: its status, the cookies of its [Set-Cookie] headers (what
    [Cookies()] returns) and its body. *)
Record Response : Type := {
  StatusCode : Z;
  Cookies : list Cookie;
  Body : body
}.

(** A client; the plugin only ever builds the zero client, [&http.Client{}]. *)
Inductive Client : Type := ZeroClient.

Definition AddCookie (r : Request) (c : option Cookie) : outcome Request :=
  match c with
  | None => Panic "runtime error: invalid memory address or nil pointer dereference"
  | Some ck =>
    Ret {| Method := Method r; URL := URL r; Header := Header r;
           ReqCookies := (ReqCookies r ++ [ck])%list; ReqBody := ReqBody r |}
  end.

Definition Header_Set (r : Request) (k v : string) : Request :=
  {| Method := Method r; URL := URL r; Header := <[k := v]> (Header r);
     ReqCookies := ReqCookies r; ReqBody := ReqBody r |}.

End http.

(** ** The environment of a run *)

(** What the plugin does not decide: the Unicode lower-case table, the URL
    parser, what the network answers to the request sent at a given tick of
    the clock, and the order in which a [range] over a values map visits its
    entries. *)
Record Env : Type := {
  lower_table : Z -> Z;
  url_Parse : string -> result url.URL;
  RoundTrip : nat -> http.Request -> result http.Response;
  range_values : gmap string value -> list (string * value)
}.

(** [http.NewRequest] with one of the method constants: fails when the URL
    text does not parse. *)
Definition NewRequest (E : Env) (method urlStr : string) (data : option string)
  : result http.Request :=
  match url_Parse E urlStr with
  | Err e => Err e
  | Ok _ => Ok {| http.Method := method; http.URL := urlStr; http.Header := ∅;
                  http.ReqCookies := []; http.ReqBody := data |}
  end.

(** [c.Do(r)] on a client pointer: the request goes out and the clock
    advances; a nil client is dereferenced. *)
Definition Do (E : Env) (c : option http.Client) (r : http.Request)
  : M (result http.Response) :=
  match c with
  | None => panic "runtime error: invalid memory address or nil pointer dereference"
  | Some _ => fun t => Ret (RoundTrip E t r, S t)
  end.

(** [json.NewDecoder(body).Decode(&data)] with [data] a nil
    [map[string]interface{}]: an object fills the map, [null] leaves it nil
    (which reads as the empty map), anything else is an error. *)
Definition Decode (b : http.body) : result (gmap string value) :=
  match b with
  | http.NotJSON e => Err e
  | http.JSON (MapV m) => Ok m
  | http.JSON Nil => Ok ∅
  | http.JSON _ =>
    Err "json: cannot unmarshal value into Go value of type map[string]interface {}"
  end.

(** ** The plugin *)

Definition parser : Type := gmap string value -> Z -> outcome value.

Definition regexpTemp : regexp.Regexp := regexp.MustCompile_lit_digits "T1".
Definition regexpMeter : regexp.Regexp := regexp.MustCompile_lit_digits "M1".
Definition regexpVC : regexp.Regexp := regexp.MustCompile_lit_digits "VCLabel".
Definition regexpStatus : regexp.Regexp := regexp.MustCompile_lit_digits "S1".
Definition regexpRelay : regexp.Regexp := regexp.MustCompile_lit_digits "R2".

(** The five closures of the map [parsers], named after their patterns.  A
    failed type assertion in a closure is a panic. *)
Definition parseTemp : parser := fun src index =>
  match as_string (map_index src ("TempValue" ++ fmt.d02 index)) with
  | Panic msg => Panic msg
  | Ret t =>
    let t := strings.TrimSuffix t " *F" in
    let '(v, _) := strconv.Atoi t in
    Ret (Int v)
  end.

Definition parseMeter : parser := fun src index =>
  Ret (map_index src ("MeterValue" ++ fmt.d02 index)).

Definition parseVC : parser := fun src index =>
  Ret (map_index src ("VCValue" ++ fmt.d02 index)).

Definition parseStatus : parser := fun src index =>
  Ret (map_index src ("StatusIndicator" ++ fmt.d02 index)).

Definition parseRelay : parser := fun src index =>
  Ret (map_index src ("RelayIndicator" ++ fmt.d02 index)).

(** The map [parsers], as the list of its entries in the order of the
    source text. *)
Definition parsers : list (regexp.Regexp * parser) :=
  [ (regexpTemp, parseTemp);
    (regexpMeter, parseMeter);
    (regexpVC, parseVC);
    (regexpStatus, parseStatus);
    (regexpRelay, parseRelay) ].

(** The rules of a list that match a key. *)
Definition matching (key : string) (rules : list (regexp.Regexp * parser))
  : list (regexp.Regexp * parser) :=
  List.filter (fun r => regexp.MatchString (fst r) key) rules.

(** The four rules whose transform hands the companion value through, each
    with the prefix of its companion key. *)
Definition passthrough : list (regexp.Regexp * string) :=
  [ (regexpMeter, "MeterValue");
    (regexpVC, "VCValue");
    (regexpStatus, "StatusIndicator");
    (regexpRelay, "RelayIndicator") ].

Record device : Type := {
  base : url.URL;
  c : option http.Client;
  ck : option http.Cookie
}.

(** The plugin.  The field [bt] of a device points back to it; the methods
    of a device that read it take the plugin as an argument. *)
Record BroadcastTools : Type := {
  URLs : list string;
  User : string;
  Password : string;
  devices : list device;
  initialized : bool
}.

Definition set_ck (d : device) (k : option http.Cookie) : device :=
  {| base := base d; c := c d; ck := k |}.

Definition set_c (d : device) (cl : option http.Client) : device :=
  {| base := base d; c := cl; ck := ck d |}.

Definition set_devices (bt : BroadcastTools) (ds : list device) : BroadcastTools :=
  {| URLs := URLs bt; User := User bt; Password := Password bt;
     devices := ds; initialized := initialized bt |}.

Definition set_initialized (bt : BroadcastTools) (b : bool) : BroadcastTools :=
  {| URLs := URLs bt; User := User bt; Password := Password bt;
     devices := devices bt; initialized := b |}.

(** The first half of [send]: the request that is handed to [d.c.Do]. *)
Definition send_request (E : Env) (d : device) (method path : string)
    (data : option string) (sendCookie : bool) : outcome (result http.Request) :=
  let u := base d in
  let u := url.set_RawPath u path in
  match NewRequest E method (url.String_ u) data with
  | Err err => Ret (Err err)
  | Ok r =>
    match (if sendCookie then http.AddCookie r (ck d) else Ret r) with
    | Panic msg => Panic msg
    | Ret r =>
      let r := if String.eqb method http.MethodPost
               then http.Header_Set r "Content-Type" "application/x-www-form-urlencoded"
               else r in
      Ret (Ok r)
    end
  end.

Definition send (E : Env) (d : device) (method path : string)
    (data : option string) (sendCookie : bool) : M (result http.Response) :=
  match send_request E d method path data sendCookie with
  | Panic msg => panic msg
  | Ret (Err err) => ret (Err err)
  | Ret (Ok r) => Do E (c d) r
  end.

(** The method [Dial] of a device pointer: the device after the call and the
    error returned. *)
Definition Dial (E : Env) (bt : BroadcastTools) (d : device)
  : M (device * option error) :=
  match ck d with
  | Some _ => ret (d, Some "already logged in")
  | None =>
    let v := [("AccessVal", ""); ("LoginPass", Password bt); ("LoginUser", User bt)] in
    let* res := send E d http.MethodPost "/cgi-bin/postauth.cgi"
                  (Some (url.Values_Encode v)) false in
    match res with
    | Err err => ret (d, Some err)
    | Ok r =>
      if negb (http.StatusCode r =? http.StatusOK) then
        ret (d, Some "authentication failed")
      else
        match http.Cookies r with
        | [] => ret (d, Some "no cookies returned")
        | ck0 :: _ => ret (set_ck d (Some ck0), None)
        end
    end
  end.

(** The body of the method [Close] of a device.  The receiver is a value: [d] is the
    copy of the device that the call works on, and the result holds that copy
    as the body leaves it. *)
Definition Close_body (E : Env) (d : device) : M (device * option error) :=
  let v := [("Logout", "1")] in
  let* res := send E d http.MethodPost "/cgi-bin/postlogout.cgi"
                (Some (url.Values_Encode v)) true in
  match res with
  | Err _ => ret (d, None)
  | Ok _ => ret (set_c (set_ck d None) None, None)
  end.

(** The call [d.Close()] on a device held through a pointer (as the devices
    of the plugin are): the receiver is copied in, the copy is dropped when
    the call returns, and the device of the caller is as it was. *)
Definition Close (E : Env) (d : device) : M (device * option error) :=
  let* r := Close_body E d in
  ret (d, snd r).

Definition keyify (E : Env) (s : string) : string :=
  let s := strings.ToLower (lower_table E) s in
  strings.ReplaceAll s " " "_".

(** The inner loop of the method [Gather] of a device pointer,
    [for reg, parser := range parsers],
    for one entry [key, name] of the values map, over the rules in the order
    [rules]. *)
Fixpoint Gather_rules (E : Env) (rules : list (regexp.Regexp * parser))
    (values : gmap string value) (key : string) (name : value)
    (fields : gmap string value) : outcome (gmap string value) :=
  match rules with
  | [] => Ret fields
  | (reg, parser) :: rest =>
    let matches := regexp.FindStringSubmatch reg key in
    if (length matches <? 2)%nat then Gather_rules E rest values key name fields
    else
      match strconv.Atoi (nth 1 matches "") with
      | (_, Some _) => Gather_rules E rest values key name fields
      | (index, None) =>
        match parser values index with
        | Panic msg => Panic msg
        | Ret v =>
          match as_string name with
          | Panic msg => Panic msg
          | Ret label =>
            Gather_rules E rest values key name (<[keyify E label := v]> fields)
          end
        end
      end
  end.

(** The outer loop, [for key, name := range values], over the entries in the
    order [entries]. *)
Fixpoint Gather_entries (E : Env) (entries : list (string * value))
    (values : gmap string value) (fields : gmap string value)
  : outcome (gmap string value) :=
  match entries with
  | [] => Ret fields
  | (key, name) :: rest =>
    match Gather_rules E parsers values key name fields with
    | Panic msg => Panic msg
    | Ret fields' => Gather_entries E rest values fields'
    end
  end.

(** The method [Gather] of a device pointer up to its call of
    [acc.AddFields]: the error it returns, or the field map it is about to emit. *)
Definition device_poll (E : Env) (d : device) : M (result (gmap string value)) :=
  let* res := send E d http.MethodGet "/cgi-bin/getexchanger_monitor.cgi" None true in
  match res with
  | Err err => ret (Err err)
  | Ok r =>
    if negb (http.StatusCode r =? http.StatusOK) then
      ret (Err ("expected status " ++ fmt.d http.StatusOK ++ "; got "
                ++ fmt.d (http.StatusCode r)))
    else
      match Decode (http.Body r) with
      | Err err => ret (Err err)
      | Ok data =>
        match as_map (map_index data "values") with
        | Panic msg => panic msg
        | Ret values =>
          match Gather_entries E (range_values E values) values ∅ with
          | Panic msg => panic msg
          | Ret fields => ret (Ok fields)
          end
        end
      end
  end.

(** ** The accumulator *)

(** The accumulator is the host's; it is represented by the calls it has
    received, oldest first.  A nil tag map is [None]. *)
Inductive acc_call : Type :=
| AddFields (measurement : string) (fields : gmap string value)
            (tags : option (gmap string string))
| AddError (err : error).

Definition Accumulator : Type := list acc_call.

(** The method [Gather] of a device pointer. *)
Definition device_Gather (E : Env) (d : device) (acc : Accumulator)
  : M (Accumulator * option error) :=
  let* res := device_poll E d in
  match res with
  | Err err => ret (acc, Some err)
  | Ok fields => ret ((acc ++ [AddFields "broadcasttools" fields None])%list, None)
  end.

(** The method [init] of the plugin: the loop over the URLs still to be
    dialled. *)
Fixpoint init_loop (E : Env) (us : list string) (bt : BroadcastTools)
  : M (BroadcastTools * option error) :=
  match us with
  | [] => ret (set_initialized bt true, None)
  | u :: rest =>
    match url_Parse E u with
    | Err err => ret (bt, Some err)
    | Ok b =>
      let d := {| base := b; c := Some http.ZeroClient; ck := None |} in
      let* r := Dial E bt d in
      match snd r with
      | Some err => ret (bt, Some err)
      | None => init_loop E rest (set_devices bt (devices bt ++ [fst r])%list)
      end
    end
  end.

Definition init (E : Env) (bt : BroadcastTools) : M (BroadcastTools * option error) :=
  if initialized bt then ret (bt, None)
  else init_loop E (URLs bt) bt.

(** ** The gather cycle *)

(** A goroutine of [Gather], [go func(d, a) { ... }(device, acc)]: started
    and about to send its request; back from the network with the outcome of
    the method [Gather] of its device, its call of the accumulator pending;
    or past [wg.Done()]. *)
Inductive goroutine : Type :=
| Spawned (d : device)
| Polled (r : result (gmap string value))
| Exited.

Record pool : Type := {
  routines : list goroutine;
  acc : Accumulator;
  now : nat
}.

(** One step of goroutine [i].  A panic in a goroutine ends the program. *)
Definition step (E : Env) (i : nat) (p : pool) : outcome pool :=
  match routines p !! i with
  | Some (Spawned d) =>
    match device_poll E d (now p) with
    | Panic msg => Panic msg
    | Ret (r, t') =>
      Ret {| routines := <[i := Polled r]> (routines p); acc := acc p; now := t' |}
    end
  | Some (Polled (Ok fields)) =>
    Ret {| routines := <[i := Exited]> (routines p);
           acc := (acc p ++ [AddFields "broadcasttools" fields None])%list;
           now := now p |}
  | Some (Polled (Err err)) =>
    Ret {| routines := <[i := Exited]> (routines p);
           acc := (acc p ++ [AddError err])%list;
           now := now p |}
  | Some Exited => Ret p
  | None => Ret p
  end.

(** The goroutines run as the scheduler interleaves them: [sched] lists, in
    order, which goroutine takes its next step. *)
Fixpoint run (E : Env) (sched : list nat) (p : pool) : outcome pool :=
  match sched with
  | [] => Ret p
  | i :: rest =>
    match step E i p with
    | Panic msg => Panic msg
    | Ret p' => run E rest p'
    end
  end.

Definition is_exited (g : goroutine) : bool :=
  match g with
  | Exited => true
  | _ => false
  end.

(** How a call of [Gather] stands at the end of a schedule: it has returned,
    or it is still in [wg.Wait()]. *)
Inductive gather_return : Type :=
| Returned (err : option error)
| Blocked.

(** The method [Gather] of the plugin under the schedule [sched]. *)
Definition Gather (E : Env) (bt : BroadcastTools) (sched : list nat)
    (a : Accumulator) : M (BroadcastTools * Accumulator * gather_return) :=
  fun t =>
  match (if negb (initialized bt) then init E bt t else Ret ((bt, None), t)) with
  | Panic msg => Panic msg
  | Ret ((bt', Some err), t') => Ret ((bt', a, Returned (Some err)), t')
  | Ret ((bt', None), t') =>
    match run E sched {| routines := Spawned <$> devices bt'; acc := a; now := t' |} with
    | Panic msg => Panic msg
    | Ret p =>
      Ret ((bt', acc p,
            if forallb is_exited (routines p) then Returned None else Blocked),
           now p)
    end
  end.

(** A schedule under which each of [n] goroutines gets the two steps it
    needs. *)
Definition complete (sched : list nat) (n : nat) : Prop :=
  forall i, (i < n)%nat -> (2 <= count_occ Nat.eq_dec sched i)%nat.

Definition is_AddError (e : acc_call) : bool :=
  match e with
  | AddError _ => true
  | AddFields _ _ _ => false
  end.

Definition is_AddFields (e : acc_call) : bool :=
  match e with
  | AddFields _ _ _ => true
  | AddError _ => false
  end.

(** ** Auxiliary notions for the statements *)

(** The steps a goroutine still has to take. *)
Definition remaining (g : goroutine) : nat :=
  match g with
  | Spawned _ => 2
  | Polled _ => 1
  | Exited => 0
  end.

(** The URL of the request that [send] hands to the transport, if it gets
    that far. *)
Definition sent_URL (o : outcome (result http.Request)) : option string :=
  match o with
  | Ret (Ok r) => Some (http.URL r)
  | _ => None
  end.


(** The number that a string of decimal digits writes, read after [acc]. *)
Fixpoint digits_value_from (acc : Z) (s : string) : Z :=
  match s with
  | EmptyString => acc
  | String c s' => digits_value_from (acc * 10 + (byte_val c - 48)) s'
  end.


(** Space to underscore, on a byte and on a rune: what
    [Replace(s, " ", "_", -1)] does to each. *)
Definition underscore_byte (c : ascii) : ascii :=
  if Ascii.eqb c " " then "_"%char else c.

Definition underscore_rune (r : Z) : Z := if r =? 32 then 95 else r.

(** The table takes runes that can be encoded to runes that can be encoded,
    and lower-casing what it yields changes nothing.  (ASCII never reaches the
    table.) *)
Definition table_ok (tbl : Z -> Z) : Prop :=
  forall r : Z,
    unicode.MaxASCII < r -> utf8.ValidRune r = true ->
    utf8.ValidRune (tbl r) = true /\ unicode.ToLower tbl (tbl r) = tbl r.

(** The devices that [url_Parse] and [Dial] make of a list of URLs. *)
Definition dialled_from (E : Env) (us : list string) (ds : list device) : Prop :=
  Forall2 (fun u d => url_Parse E u = Ok (base d)) us ds.

(** ** A test bench *)

Module bench.

(** A table that lower-cases the capital letters of Latin-1. *)
Definition latin1 (r : Z) : Z :=
  if (0xC0 <=? r) && (r <=? 0xDE) && negb (r =? 0xD7) then r + 32 else r.

Definition plain (scheme host : string) : url.URL :=
  {| url.Scheme := scheme; url.Opaque := ""; url.User := None; url.Host := host;
     url.Path := ""; url.RawPath := ""; url.ForceQuery := false;
     url.RawQuery := ""; url.Fragment := "" |}.

(** A parser that knows three addresses. *)
Definition parse (s : string) : result url.URL :=
  if String.eqb s "http://localhost:1776" then Ok (plain "http" "localhost:1776")
  else if String.eqb s "http://10.0.0.2" then Ok (plain "http" "10.0.0.2")
  else if String.eqb s "http://10.0.0.3" then Ok (plain "http" "10.0.0.3")
  else Err "parse error".

Definition session : http.Cookie := {| http.Name := "sid"; http.Value := "42" |}.

Definition payload : gmap string value :=
  <["T101" := Str "Temp Sensor 01"]> (<["TempValue01" := Str "72 *F"]>
  (<["M101" := Str "Line In"]> (<["S103" := Str "Door"]>
  (<["StatusIndicator03" := Bool true]> ∅)))).

Definition ok_login : http.Response :=
  {| http.StatusCode := 200; http.Cookies := [session];
     http.Body := http.NotJSON "EOF" |}.

Definition ok_poll : http.Response :=
  {| http.StatusCode := 200; http.Cookies := [];
     http.Body := http.JSON (MapV (<["values" := MapV payload]> ∅)) |}.

Definition refused : http.Response :=
  {| http.StatusCode := 401; http.Cookies := []; http.Body := http.NotJSON "EOF" |}.

Definition broken : http.Response :=
  {| http.StatusCode := 500; http.Cookies := []; http.Body := http.NotJSON "EOF" |}.

(** A device that answers every login and every poll. *)
Definition steady (t : nat) (r : http.Request) : result http.Response :=
  if String.eqb (http.Method r) "POST" then Ok ok_login else Ok ok_poll.

(** The second request ever sent is refused; everything else is answered. *)
Definition flaky (t : nat) (r : http.Request) : result http.Response :=
  if Nat.eqb t 1 then Ok refused else steady t r.

(** The device at 10.0.0.2 answers its polls with status 500. *)
Definition one_down (t : nat) (r : http.Request) : result http.Response :=
  if String.eqb (http.Method r) "GET" && String.eqb (http.URL r) "http://10.0.0.2"
  then Ok broken else steady t r.

(** Every poll is answered with the JSON document [doc]. *)
Definition answering (doc : value) (t : nat) (r : http.Request)
  : result http.Response :=
  if String.eqb (http.Method r) "POST" then Ok ok_login
  else Ok {| http.StatusCode := 200; http.Cookies := []; http.Body := http.JSON doc |}.

(** A device that serves its three endpoints and answers 404 everywhere
    else. *)
Definition strict (t : nat) (r : http.Request) : result http.Response :=
  if String.eqb (http.URL r) "http://localhost:1776/cgi-bin/postauth.cgi" ||
     String.eqb (http.URL r) "http://localhost:1776/cgi-bin/postlogout.cgi"
  then Ok ok_login
  else if String.eqb (http.URL r) "http://localhost:1776/cgi-bin/getexchanger_monitor.cgi"
  then Ok ok_poll
  else Ok {| http.StatusCode := 404; http.Cookies := []; http.Body := http.NotJSON "EOF" |}.

(** Every poll is answered with a values object that holds no key of the
    five patterns. *)
Definition unrelated : gmap string value :=
  <["Uptime" := Float64 12.5%float]> (<["TempValue01" := Str "72 *F"]> ∅).

(** The network is down. *)
Definition down (t : nat) (r : http.Request) : result http.Response :=
  Err "dial tcp: connection refused".

Definition env (net : nat -> http.Request -> result http.Response) : Env :=
  {| lower_table := latin1; url_Parse := parse; RoundTrip := net;
     range_values := map_to_list |}.

Definition plugin (us : list string) : BroadcastTools :=
  {| URLs := us; User := "admin"; Password := "password";
     devices := []; initialized := false |}.

Definition fresh (b : url.URL) : device :=
  {| base := b; c := Some http.ZeroClient; ck := None |}.

Definition localhost : url.URL := plain "http" "localhost:1776".

Definition logged_in (b : url.URL) : device :=
  {| base := b; c := Some http.ZeroClient; ck := Some session |}.

(** A plugin that has logged in at its three addresses. *)
Definition three : BroadcastTools :=
  {| URLs := ["http://localhost:1776"; "http://10.0.0.2"; "http://10.0.0.3"];
     User := "admin"; Password := "password";
     devices := [logged_in localhost; logged_in (plain "http" "10.0.0.2");
                 logged_in (plain "http" "10.0.0.3")];
     initialized := true |}.

(** A plugin for two addresses, and the same plugin after an [init] that got
    through the first one only. *)
Definition two : BroadcastTools := plugin ["http://localhost:1776"; "http://10.0.0.2"].

Definition half : BroadcastTools := set_devices two [logged_in localhost].

End bench.

(** * Properties *)

(** ** The session protocol *)

(** [Dial] with a cookie in place does nothing but return its error. *)
Lemma Dial_with_cookie (E : Env) (bt : BroadcastTools) (d : device) (t : nat) :
  is_Some (ck d) ->
  Dial E bt d t = Ret ((d, Some "already logged in"), t).
Proof.
  intros [k Hk]. unfold Dial. rewrite Hk. reflexivity.
Qed.

(** C7: a device whose session cookie is present fails to log in again, with
    the error [already logged in]; the call leaves the device, and so its
    stored cookie, as it was, and sends nothing. *)
Theorem Dial_already_authenticated :
  forall (E : Env) (bt : BroadcastTools) (d : device) (k : http.Cookie) (t : nat),
    ck d = Some k ->
    exists d' : device,
      Dial E bt d t = Ret ((d', Some "already logged in"), t) /\
      ck d' = Some k /\ d' = d.
Proof.
  intros E bt d k t Hk. exists d. split; [|split]; try done.
  apply Dial_with_cookie. by rewrite Hk.
Qed.

Lemma Dial_already_authenticated_witness :
  ck (bench.logged_in bench.localhost) = Some bench.session /\
  exists d' : device,
    Dial (bench.env bench.steady) (bench.plugin []) (bench.logged_in bench.localhost) 0%nat
      = Ret ((d', Some "already logged in"), 0%nat) /\
    ck d' = Some bench.session /\ d' = bench.logged_in bench.localhost.
Proof.
  split; [reflexivity|].
  apply (Dial_already_authenticated (bench.env bench.steady) (bench.plugin [])
           (bench.logged_in bench.localhost) bench.session 0%nat).
  reflexivity.
Defined.

(** [Close] never hands back an error, and never a changed device: what its
    body clears is the copy it received. *)
Lemma Close_returns_receiver (E : Env) (d d' : device) (e : option error) (t t' : nat) :
  Close E d t = Ret ((d', e), t') -> d' = d /\ e = None.
Proof.
  unfold Close, Close_body, bind, ret.
  destruct (send E d _ _ _ _ t) as [[[r|err] t1]|msg]; simpl; intros H;
    try discriminate; by inversion H.
Qed.

(** C1 (the code departs from it): for a logged-in device whose logout POST
    is answered, [Close] returns nil but the device still holds its cookie and
    its client, so the next [Dial] fails with [already logged in]; the same
    holds when the transport fails. *)
Theorem Close_keeps_the_cookie :
  let d := bench.logged_in bench.localhost in
  Close (bench.env bench.steady) d 0%nat = Ret ((d, None), 1%nat) /\
  Close (bench.env bench.down) d 0%nat = Ret ((d, None), 1%nat) /\
  ck d = Some bench.session /\
  c d = Some http.ZeroClient /\
  Dial (bench.env bench.steady) (bench.plugin []) d 1%nat
    = Ret ((d, Some "already logged in"), 1%nat).
Proof.
  repeat split; vm_compute; reflexivity.
Qed.

(** A device that holds a cookie keeps it across any [Close] that returns,
    and cannot log in afterwards. *)
Lemma Close_then_Dial (E : Env) (bt : BroadcastTools) (d d' : device)
    (e : option error) (t t' : nat) :
  is_Some (ck d) ->
  Close E d t = Ret ((d', e), t') ->
  ck d' = ck d /\ Dial E bt d' t' = Ret ((d', Some "already logged in"), t').
Proof.
  intros Hk H. apply Close_returns_receiver in H as [-> _].
  split; [done|]. by apply Dial_with_cookie.
Qed.

(** [Close] on a device that never logged in dereferences the nil cookie. *)
Lemma Close_without_cookie_panics :
  Close (bench.env bench.steady) (bench.fresh bench.localhost) 0%nat
  = Panic "runtime error: invalid memory address or nil pointer dereference".
Proof. vm_compute. reflexivity. Qed.

(** ** The request URL *)

(** When [RawPath] is not an encoding of [Path], [EscapedPath] is computed
    from [Path] alone. *)
Lemma EscapedPath_ignores_RawPath (u : url.URL) (p : string) :
  url.unescape_path p <> Some (url.Path u) ->
  url.EscapedPath (url.set_RawPath u p) = url.EscapedPath (url.set_RawPath u "").
Proof.
  intros Hp. unfold url.EscapedPath. simpl.
  destruct (url.unescape_path p) as [q|] eqn:Hq.
  - destruct (String.eqb_spec q (url.Path u)) as [->|_]; [by destruct Hp|].
    by rewrite !andb_false_r.
  - by rewrite !andb_false_r.
Qed.

(** Assigning such a [RawPath] does not change the text of the URL. *)
Lemma String_ignores_RawPath (u : url.URL) (p : string) :
  url.unescape_path p <> Some (url.Path u) ->
  url.String_ (url.set_RawPath u p) = url.String_ (url.set_RawPath u "").
Proof.
  intros Hp. unfold url.String_.
  rewrite (EscapedPath_ignores_RawPath u p Hp). reflexivity.
Qed.

(** C2 (the code departs from it): for the device at http://localhost:1776,
    the requests of login, logout and poll all carry the base address alone
    as their URL, the endpoint path being absent; a device that serves only
    the three endpoints therefore refuses the login. *)
Theorem send_leaves_the_path_out :
  let E := bench.env bench.strict in
  let d := bench.logged_in bench.localhost in
  sent_URL (send_request E d http.MethodPost "/cgi-bin/postauth.cgi" (Some "") false)
    = Some "http://localhost:1776" /\
  sent_URL (send_request E d http.MethodPost "/cgi-bin/postlogout.cgi" (Some "") true)
    = Some "http://localhost:1776" /\
  sent_URL (send_request E d http.MethodGet "/cgi-bin/getexchanger_monitor.cgi" None true)
    = Some "http://localhost:1776" /\
  Dial E (bench.plugin []) (bench.fresh bench.localhost) 0%nat
    = Ret ((bench.fresh bench.localhost, Some "authentication failed"), 1%nat).
Proof.
  repeat split; vm_compute; reflexivity.
Qed.

(** ** Malformed payloads *)

(** A poll answered with status 200 and a JSON document whose [values] entry
    is not an object panics in the type assertion. *)
Lemma device_poll_malformed (E : Env) (d : device) (t t' : nat)
    (r : http.Response) (data : gmap string value) :
  send E d http.MethodGet "/cgi-bin/getexchanger_monitor.cgi" None true t
    = Ret (Ok r, t') ->
  http.StatusCode r = http.StatusOK ->
  Decode (http.Body r) = Ok data ->
  (forall m, map_index data "values" <> MapV m) ->
  exists msg, device_poll E d t = Panic msg.
Proof.
  intros Hsend Hst Hdec Hval. unfold device_poll, bind. rewrite Hsend, Hst. simpl.
  rewrite Hdec. destruct (map_index data "values") eqn:Hv; simpl; eauto.
  by destruct (Hval m).
Qed.

(** C3 (the code departs from it): a poll answered with status 200 and the
    JSON object [{}], or with an object whose [values] entry is a string,
    does not return an error: the type assertion panics, in the poll, in the
    method [Gather] of the device, and so in the whole gather cycle, and the
    accumulator receives nothing. *)
Theorem poll_without_values_panics :
  let d := bench.logged_in bench.localhost in
  let empty_doc := bench.env (bench.answering (MapV ∅)) in
  let wrong_doc := bench.env (bench.answering (MapV (<["values" := Str "on"]> ∅))) in
  device_poll empty_doc d 0%nat
    = Panic "interface conversion: interface {} is nil, not map[string]interface {}" /\
  device_poll wrong_doc d 0%nat
    = Panic "interface conversion: interface {} is not map[string]interface {}" /\
  device_Gather empty_doc d [] 0%nat
    = Panic "interface conversion: interface {} is nil, not map[string]interface {}" /\
  Gather empty_doc (bench.plugin ["http://localhost:1776"]) [0; 0]%nat [] 0%nat
    = Panic "interface conversion: interface {} is nil, not map[string]interface {}".
Proof.
  repeat split; vm_compute; reflexivity.
Qed.

(** ** The field pattern rules *)

Lemma MatchString_HasPrefix (re : regexp.Regexp) (s : string) :
  regexp.MatchString re s = true -> strings.HasPrefix s (regexp.literal re) = true.
Proof.
  unfold regexp.MatchString, regexp.FindStringSubmatch.
  by destruct (strings.HasPrefix s (regexp.literal re)).
Qed.

Lemma HasPrefix_head (s : string) (a : ascii) (p : string) :
  strings.HasPrefix s (String a p) = true -> exists s', s = String a s'.
Proof.
  destruct s as [|b s']; simpl; [done|].
  destruct (Ascii.eqb_spec a b) as [->|]; [eauto|done].
Qed.

(** Two rules whose literals start with different bytes never match the same
    key. *)
Lemma MatchString_exclusive (re1 re2 : regexp.Regexp) (a b : ascii) (p q key : string) :
  regexp.literal re1 = String a p ->
  regexp.literal re2 = String b q ->
  a <> b ->
  regexp.MatchString re1 key = true ->
  regexp.MatchString re2 key = false.
Proof.
  intros H1 H2 Hab Hm.
  destruct (regexp.MatchString re2 key) eqn:Hm2; [|done].
  apply MatchString_HasPrefix in Hm, Hm2. rewrite H1 in Hm. rewrite H2 in Hm2.
  apply HasPrefix_head in Hm as [s1 ->]. apply HasPrefix_head in Hm2 as [s2 Heq].
  congruence.
Qed.

Lemma matching_parsers_le_1 (key : string) : (length (matching key parsers) <= 1)%nat.
Proof.
  unfold matching, parsers. simpl.
  destruct (regexp.MatchString regexpTemp key) eqn:HT;
  destruct (regexp.MatchString regexpMeter key) eqn:HM;
  destruct (regexp.MatchString regexpVC key) eqn:HV;
  destruct (regexp.MatchString regexpStatus key) eqn:HS;
  destruct (regexp.MatchString regexpRelay key) eqn:HR; simpl; try lia; exfalso;
  repeat match goal with
  | H1 : regexp.MatchString ?r1 key = true, H2 : regexp.MatchString ?r2 key = true |- _ =>
    lazymatch r1 with
    | r2 => fail
    | _ => eapply (MatchString_exclusive r1 r2) in H1; [congruence|reflexivity|reflexivity|discriminate]
    end
  end.
Qed.

Lemma matching_Permutation (key : string) (l1 l2 : list (regexp.Regexp * parser)) :
  Permutation l1 l2 -> Permutation (matching key l1) (matching key l2).
Proof.
  unfold matching. induction 1 as [|x l l' _ IH|x y l|l l' l'' _ IH1 _ IH2]; simpl.
  - constructor.
  - destruct (regexp.MatchString (fst x) key); [by constructor|done].
  - destruct (regexp.MatchString (fst x) key), (regexp.MatchString (fst y) key);
      try reflexivity. apply perm_swap.
  - by etransitivity.
Qed.

(** C9: the five patterns are pairwise disjoint: whatever the key, and in
    whatever order the rules are enumerated, at most one rule matches it, so
    at most one transform is applied to a key. *)
Theorem patterns_disjoint :
  forall (key : string) (rules : list (regexp.Regexp * parser)),
    Permutation rules parsers ->
    (length (matching key rules) <= 1)%nat.
Proof.
  intros key rules Hp.
  rewrite (Permutation_length (matching_Permutation key _ _ Hp)).
  apply matching_parsers_le_1.
Qed.

Lemma patterns_disjoint_witness :
  Permutation (rev parsers) parsers /\
  (length (matching "S103" (rev parsers)) <= 1)%nat.
Proof.
  assert (Hp : Permutation (rev parsers) parsers).
  { symmetry. apply Permutation_rev. }
  split; [exact Hp|].
  exact (patterns_disjoint "S103" (rev parsers) Hp).
Defined.

(** ** Extraction, key by key *)

Lemma FindStringSubmatch_no_match (re : regexp.Regexp) (key : string) :
  regexp.MatchString re key = false -> regexp.FindStringSubmatch re key = [].
Proof.
  unfold regexp.MatchString. by destruct (regexp.FindStringSubmatch re key).
Qed.

(** A rule that does not match the key is passed over. *)
Lemma Gather_rules_skip (E : Env) (reg : regexp.Regexp) (p : parser)
    (rest : list (regexp.Regexp * parser)) (values : gmap string value)
    (key : string) (name : value) (fields : gmap string value) :
  regexp.MatchString reg key = false ->
  Gather_rules E ((reg, p) :: rest) values key name fields
  = Gather_rules E rest values key name fields.
Proof.
  intros H. simpl. by rewrite (FindStringSubmatch_no_match _ _ H).
Qed.

(** A rule that matches, with an index in range, applies its transform. *)
Lemma Gather_rules_hit (E : Env) (reg : regexp.Regexp) (p : parser)
    (rest : list (regexp.Regexp * parser)) (values : gmap string value)
    (key ds : string) (index : Z) (v : value) (label : string)
    (fields : gmap string value) :
  regexp.FindStringSubmatch reg key = [key; ds] ->
  strconv.Atoi ds = (index, None) ->
  p values index = Ret v ->
  Gather_rules E ((reg, p) :: rest) values key (Str label) fields
  = Gather_rules E rest values key (Str label) (<[keyify E label := v]> fields).
Proof.
  intros Hm Ha Hp. simpl. rewrite Hm. simpl. rewrite Ha, Hp. reflexivity.
Qed.

Lemma matching_nil_inv (key : string) (rules : list (regexp.Regexp * parser)) :
  matching key rules = [] ->
  Forall (fun r => regexp.MatchString (fst r) key = false) rules.
Proof.
  unfold matching. induction rules as [|r rules IH]; simpl; [constructor|].
  destruct (regexp.MatchString (fst r) key) eqn:Hr; [done|].
  intros H. constructor; auto.
Qed.

Lemma Gather_rules_none (E : Env) (rules : list (regexp.Regexp * parser))
    (values : gmap string value) (key : string) (name : value)
    (fields : gmap string value) :
  Forall (fun r => regexp.MatchString (fst r) key = false) rules ->
  Gather_rules E rules values key name fields = Ret fields.
Proof.
  induction 1 as [|[reg p] rules Hr _ IH]; [done|].
  by rewrite Gather_rules_skip.
Qed.

Lemma FindStringSubmatch_match (re : regexp.Regexp) (key ds : string) :
  regexp.FindStringSubmatch re key = [key; ds] -> regexp.MatchString re key = true.
Proof. unfold regexp.MatchString. by intros ->. Qed.

Ltac other_rule H :=
  rewrite Gather_rules_skip;
  [|eapply MatchString_exclusive;
    [| |  |apply (FindStringSubmatch_match _ _ _ H)];
    [reflexivity|reflexivity|discriminate]].

(** C4 (as amended): a key that matches no rule leaves the field map as it
    is; a key matched by the meter, VC-label, status or relay rule whose
    companion key is absent still writes an entry, under the normalised
    label, and its value is nil. *)
Theorem extraction_per_key :
  forall (E : Env) (values : gmap string value) (key : string) (name : value)
         (fields : gmap string value),
    (matching key parsers = [] ->
     Gather_rules E parsers values key name fields = Ret fields) /\
    (forall (reg : regexp.Regexp) (companion ds label : string) (index : Z),
       In (reg, companion) passthrough ->
       regexp.FindStringSubmatch reg key = [key; ds] ->
       strconv.Atoi ds = (index, None) ->
       values !! (companion ++ fmt.d02 index) = None ->
       name = Str label ->
       Gather_rules E parsers values key name fields
       = Ret (<[keyify E label := Nil]> fields)).
Proof.
  intros E values key name fields. split.
  - intros H. apply Gather_rules_none. by apply matching_nil_inv.
  - intros reg companion ds label index Hin Hm Ha Hc ->.
    unfold parsers.
    assert (Hnil : map_index values (companion ++ fmt.d02 index) = Nil).
    { unfold map_index. by rewrite Hc. }
    simpl in Hin.
    destruct Hin as [Heq|[Heq|[Heq|[Heq|[]]]]]; inversion Heq; subst reg companion.
    + other_rule Hm.
      rewrite (Gather_rules_hit E _ _ _ _ _ _ _ Nil _ _ Hm Ha)
        by (unfold parseMeter; by rewrite Hnil).
      do 3 other_rule Hm. reflexivity.
    + do 2 other_rule Hm.
      rewrite (Gather_rules_hit E _ _ _ _ _ _ _ Nil _ _ Hm Ha)
        by (unfold parseVC; by rewrite Hnil).
      do 2 other_rule Hm. reflexivity.
    + do 3 other_rule Hm.
      rewrite (Gather_rules_hit E _ _ _ _ _ _ _ Nil _ _ Hm Ha)
        by (unfold parseStatus; by rewrite Hnil).
      other_rule Hm. reflexivity.
    + do 4 other_rule Hm.
      rewrite (Gather_rules_hit E _ _ _ _ _ _ _ Nil _ _ Hm Ha)
        by (unfold parseRelay; by rewrite Hnil).
      reflexivity.
Qed.

Lemma extraction_per_key_witness :
  let E := bench.env bench.steady in
  let values : gmap string value := <["M101" := Str "Line In"]> ∅ in
  (matching "TempValue01" parsers = [] ->
   Gather_rules E parsers values "TempValue01" (Str "72 *F") ∅ = Ret ∅) /\
  (In (regexpMeter, "MeterValue") passthrough ->
   regexp.FindStringSubmatch regexpMeter "M101" = ["M101"; "01"] ->
   strconv.Atoi "01" = (1, None) ->
   values !! ("MeterValue" ++ fmt.d02 1) = None ->
   Str "Line In" = Str "Line In" ->
   Gather_rules E parsers values "M101" (Str "Line In") ∅
   = Ret (<[keyify E "Line In" := Nil]> ∅)) /\
  matching "TempValue01" parsers = [] /\
  In (regexpMeter, "MeterValue") passthrough /\
  regexp.FindStringSubmatch regexpMeter "M101" = ["M101"; "01"] /\
  strconv.Atoi "01" = (1, None) /\
  values !! ("MeterValue" ++ fmt.d02 1) = None.
Proof.
  intros E values.
  split; [|split].
  - exact (proj1 (extraction_per_key E values "TempValue01" (Str "72 *F") ∅)).
  - exact (proj2 (extraction_per_key E values "M101" (Str "Line In") ∅)
             regexpMeter "MeterValue" "01" "Line In" 1).
  - repeat split; try reflexivity. simpl. auto.
Defined.

(** C4 as stated fails: the key [M101] is matched by the meter rule, its
    companion [MeterValue01] is absent from the values map, and extraction
    yields a field map with the entry [line_in], of value nil. *)
Lemma absent_companion_still_emits :
  let E := bench.env bench.steady in
  let values : gmap string value := <["M101" := Str "Line In"]> ∅ in
  regexp.MatchString regexpMeter "M101" = true /\
  values !! "MeterValue01" = None /\
  Gather_rules E parsers values "M101" (Str "Line In") ∅
    = Ret (<["line_in" := Nil]> ∅) /\
  Gather_entries E (range_values E values) values ∅ = Ret (<["line_in" := Nil]> ∅) /\
  (<["line_in" := Nil]> ∅ : gmap string value) !! "line_in" = Some Nil /\
  (<["line_in" := Nil]> ∅ : gmap string value) <> ∅.
Proof.
  repeat split; try (vm_compute; reflexivity).
  intros H. apply (f_equal (fun m : gmap string value => m !! "line_in")) in H.
  vm_compute in H. discriminate.
Qed.

(** ** The temperature transform *)













Lemma digits_value_from_app (x y : string) (acc : Z) :
  digits_value_from acc (x ++ y) = digits_value_from (digits_value_from acc x) y.
Proof. revert acc. induction x as [|c x IH]; intros acc; simpl; [done|apply IH]. Qed.



























Lemma parseTemp_eq (src : gmap string value) (index : Z) (s : string) :
  src !! ("TempValue" ++ fmt.d02 index) = Some (Str s) ->
  parseTemp src index
  = Ret (Int (fst (strconv.Atoi (strings.TrimSuffix s " *F")))).
Proof.
  intros H. unfold parseTemp, map_index. rewrite H. simpl.
  by destruct (strconv.Atoi (strings.TrimSuffix s " *F")).
Qed.




(** Digits that leave [uint64] decide the outcome before a later byte is
    looked at: [99999999999999999999x *F] gives the largest [int], while one
    digit less, [9999999999999999999x *F], gives 0. *)
Lemma parseTemp_overflow_before_letter :
  parseTemp (<["TempValue01" := Str "99999999999999999999x *F"]> ∅) 1
  = Ret (Int 9223372036854775807) /\
  parseTemp (<["TempValue01" := Str "9999999999999999999x *F"]> ∅) 1
  = Ret (Int 0) /\
  parseTemp (<["TempValue01" := Str "-99999999999999999999x *F"]> ∅) 1
  = Ret (Int (- 9223372036854775808)).
Proof. repeat split; vm_compute; reflexivity. Qed.

(** A companion value with another unit is not read up to its numeric
    prefix: [72 C] gives 0. *)
Lemma parseTemp_other_unit :
  parseTemp (<["TempValue01" := Str "72 C"]> ∅) 1 = Ret (Int 0).
Proof. vm_compute. reflexivity. Qed.


(** ** The gather cycle *)

Lemma filter_length_insert {A : Type} (f : A -> bool) (l : list A) (i : nat) (x y : A) :
  l !! i = Some x ->
  (length (List.filter f (<[i := y]> l)) + Nat.b2n (f x)
   = length (List.filter f l) + Nat.b2n (f y))%nat.
Proof.
  revert i. induction l as [|z l IH]; intros [|i] H; simpl in *; try done.
  - inversion H; subst z. destruct (f x), (f y); simpl; lia.
  - specialize (IH i H). destruct (f z); simpl; lia.
Qed.

Lemma filter_length_app {A : Type} (f : A -> bool) (l : list A) (x : A) :
  length (List.filter f (l ++ [x])) = (length (List.filter f l) + Nat.b2n (f x))%nat.
Proof.
  rewrite List.filter_app, length_app. simpl. destruct (f x); reflexivity.
Qed.

Section one_failure.

Variable E : Env.
Variable devs : list device.
Variable k : nat.
Variable a : Accumulator.

Hypothesis others_succeed :
  forall (i : nat) (d : device) (t0 : nat),
    devs !! i = Some d -> i <> k ->
    exists fields t1, device_poll E d t0 = Ret (Ok fields, t1).

Hypothesis kth_fails :
  forall (d : device) (t0 : nat),
    devs !! k = Some d ->
    exists err t1, device_poll E d t0 = Ret (Err err, t1).

(** The error [err] is one that a poll of device [k] returns. *)
Let from_k (err : error) : Prop :=
  exists d t0 t1, devs !! k = Some d /\ device_poll E d t0 = Ret (Err err, t1).

(** What a goroutine at index [i] can hold. *)
Let routine_ok (i : nat) (g : goroutine) : Prop :=
  match g with
  | Spawned d => devs !! i = Some d
  | Polled (Ok _) => i <> k
  | Polled (Err err) => i = k /\ from_k err
  | Exited => True
  end.

(** The calls received so far are those of the goroutines that have exited:
    one [AddError] if goroutine [k] has, and one [AddFields] for every other
    one. *)
Let calls_ok (rs : list goroutine) (calls : list acc_call) : Prop :=
  (length (List.filter is_AddError calls) + length (List.filter is_AddFields calls)
   = length (List.filter is_exited rs))%nat /\
  length (List.filter is_AddError calls)
  = Nat.b2n (match rs !! k with Some Exited => true | _ => false end) /\
  (forall m f tg, In (AddFields m f tg) calls -> m = "broadcasttools" /\ tg = None) /\
  (forall err, In (AddError err) calls -> from_k err).

Let Inv (p : pool) : Prop :=
  (forall i g, routines p !! i = Some g -> routine_ok i g) /\
  exists calls, acc p = (a ++ calls)%list /\ calls_ok (routines p) calls.

Lemma step_Inv (i : nat) (p : pool) :
  Inv p -> exists p', step E i p = Ret p' /\ Inv p'.
Proof.
  intros HInv. pose proof HInv as [Hr (calls & Hacc & Hn & Hk & Hf & He)].
  unfold step.
  destruct (routines p !! i) as [g|] eqn:Hi; [|by exists p].
  pose proof (Hr i g Hi) as Hg.
  assert (Hlt : (i < length (routines p))%nat) by (by eapply lookup_lt_Some).
  destruct g as [d|[fields|err]|]; simpl in Hg.
  - (* the request goes out *)
    assert (exists r t1, device_poll E d (now p) = Ret (r, t1) /\ routine_ok i (Polled r))
      as (r & t1 & Hpoll & Hok).
    { destruct (decide (i = k)) as [->|Hne].
      - destruct (kth_fails d (now p) Hg) as (err & t1 & Hp).
        exists (Err err), t1. split; [done|]. simpl. split; [done|].
        by exists d, (now p), t1.
      - destruct (others_succeed i d (now p) Hg Hne) as (fields & t1 & Hp).
        by exists (Ok fields), t1. }
    rewrite Hpoll. eexists. split; [reflexivity|]. split; simpl.
    + intros j g Hj. destruct (decide (i = j)) as [<-|Hne].
      * rewrite list_lookup_insert_eq in Hj by done. by inversion Hj.
      * rewrite list_lookup_insert_ne in Hj by done. by apply Hr.
    + exists calls. split; [done|]. split; [|split; [|by split]].
      * pose proof (filter_length_insert is_exited _ _ _ (Polled r) Hi) as Hc.
        simpl in Hc. lia.
      * rewrite Hk. f_equal. destruct (decide (i = k)) as [->|Hne].
        -- rewrite list_lookup_insert_eq by done. by rewrite Hi.
        -- by rewrite list_lookup_insert_ne.
  - (* the field map is emitted *)
    eexists. split; [reflexivity|]. split; simpl.
    + intros j g Hj. destruct (decide (i = j)) as [<-|Hne].
      * rewrite list_lookup_insert_eq in Hj by done. by inversion Hj.
      * rewrite list_lookup_insert_ne in Hj by done. by apply Hr.
    + exists (calls ++ [AddFields "broadcasttools" fields None])%list.
      split; [by rewrite Hacc, app_assoc|]. split; [|split; [|split]].
      * pose proof (filter_length_insert is_exited _ _ _ Exited Hi) as Hc.
        rewrite !filter_length_app. simpl in *. lia.
      * rewrite filter_length_app. simpl. rewrite Nat.add_0_r, Hk.
        by rewrite list_lookup_insert_ne.
      * intros m f tg H.
        apply in_app_or in H as [H|[H|[]]]; [by eapply Hf|by inversion H].
      * intros err H. apply in_app_or in H as [H|[H|[]]]; [by apply He|done].
  - (* the error is reported *)
    destruct Hg as [-> Hfrom].
    eexists. split; [reflexivity|]. split; simpl.
    + intros j g Hj. destruct (decide (k = j)) as [<-|Hne].
      * rewrite list_lookup_insert_eq in Hj by done. by inversion Hj.
      * rewrite list_lookup_insert_ne in Hj by done. by apply Hr.
    + exists (calls ++ [AddError err])%list.
      split; [by rewrite Hacc, app_assoc|]. split; [|split; [|split]].
      * pose proof (filter_length_insert is_exited _ _ _ Exited Hi) as Hc.
        rewrite !filter_length_app. simpl in *. lia.
      * rewrite filter_length_app. simpl. rewrite Hk, Hi.
        by rewrite list_lookup_insert_eq.
      * intros m f tg H.
        apply in_app_or in H as [H|[H|[]]]; [by eapply Hf|done].
      * intros err' H. apply in_app_or in H as [H|[H|[]]]; [by apply He|].
        by inversion H; subst.
  - by exists p.
Qed.

Lemma run_Inv (sched : list nat) (p : pool) :
  Inv p -> exists p', run E sched p = Ret p' /\ Inv p'.
Proof.
  revert p. induction sched as [|i sched IH]; intros p Hp; simpl; [eauto|].
  destruct (step_Inv i p Hp) as (p1 & -> & Hp1). by apply IH.
Qed.

End one_failure.

Lemma step_progress (E : Env) (j : nat) (p p' : pool) (i : nat) (g : goroutine) :
  step E j p = Ret p' ->
  routines p !! i = Some g ->
  exists g', routines p' !! i = Some g' /\
             (remaining g' <= remaining g - (if decide (i = j) then 1 else 0))%nat.
Proof.
  unfold step. intros Hs Hi.
  assert (Hlt : (i < length (routines p))%nat) by (by eapply lookup_lt_Some).
  assert (Hsame : forall x, routines p !! j = Some x -> i = j -> x = g).
  { intros x Hx ->. congruence. }
  destruct (routines p !! j) as [[d|[fields|err]|]|] eqn:Hj.
  - destruct (device_poll E d (now p)) as [[r t1]|msg]; [|done].
    inversion Hs; subst p'; simpl. case_decide as Hij.
    + subst j. rewrite list_lookup_insert_eq by done.
      rewrite <- (Hsame _ eq_refl eq_refl). eexists; split; [done|simpl; lia].
    + rewrite list_lookup_insert_ne by done. exists g. split; [done|lia].
  - inversion Hs; subst p'; simpl. case_decide as Hij.
    + subst j. rewrite list_lookup_insert_eq by done.
      rewrite <- (Hsame _ eq_refl eq_refl). eexists; split; [done|simpl; lia].
    + rewrite list_lookup_insert_ne by done. exists g. split; [done|lia].
  - inversion Hs; subst p'; simpl. case_decide as Hij.
    + subst j. rewrite list_lookup_insert_eq by done.
      rewrite <- (Hsame _ eq_refl eq_refl). eexists; split; [done|simpl; lia].
    + rewrite list_lookup_insert_ne by done. exists g. split; [done|lia].
  - inversion Hs; subst p'. exists g. split; [done|]. case_decide as Hij; [|lia].
    rewrite <- (Hsame _ eq_refl Hij). simpl; lia.
  - inversion Hs; subst p'. exists g. split; [done|]. case_decide as Hij; [|lia].
    subst j. congruence.
Qed.

Lemma run_progress (E : Env) (sched : list nat) (p p' : pool) (i : nat) (g : goroutine) :
  run E sched p = Ret p' ->
  routines p !! i = Some g ->
  exists g', routines p' !! i = Some g' /\
             (remaining g' <= remaining g - count_occ Nat.eq_dec sched i)%nat.
Proof.
  revert p g. induction sched as [|j sched IH]; intros p g Hrun Hi; simpl in *.
  - inversion Hrun; subst p'. exists g. split; [done|lia].
  - destruct (step E j p) as [p1|msg] eqn:Hs; [|done].
    destruct (step_progress E j p p1 i g Hs Hi) as (g1 & Hi1 & Hle1).
    destruct (IH p1 g1 Hrun Hi1) as (g' & Hi' & Hle').
    exists g'. split; [done|].
    destruct (Nat.eq_dec j i) as [->|Hne]; case_decide; try done; lia.
Qed.

Lemma step_length (E : Env) (j : nat) (p p' : pool) :
  step E j p = Ret p' -> length (routines p') = length (routines p).
Proof.
  unfold step. intros Hs.
  destruct (routines p !! j) as [[d|[fields|err]|]|];
    try destruct (device_poll E d (now p)) as [[r t1]|msg];
    inversion Hs; subst p'; simpl; by rewrite ?length_insert.
Qed.

Lemma run_length (E : Env) (sched : list nat) (p p' : pool) :
  run E sched p = Ret p' -> length (routines p') = length (routines p).
Proof.
  revert p. induction sched as [|j sched IH]; intros p Hrun; simpl in *.
  - by inversion Hrun.
  - destruct (step E j p) as [p1|msg] eqn:Hs; [|done].
    rewrite (IH p1 Hrun). by eapply step_length.
Qed.

(** Under a complete schedule every goroutine that was started has exited. *)
Lemma run_complete (E : Env) (sched : list nat) (ds : list device)
    (a : Accumulator) (t : nat) (p' : pool) :
  complete sched (length ds) ->
  run E sched {| routines := Spawned <$> ds; acc := a; now := t |} = Ret p' ->
  Forall (fun g => g = Exited) (routines p').
Proof.
  intros Hc Hrun. apply Forall_lookup_2. intros i g' Hi'.
  assert (Hlt : (i < length ds)%nat).
  { apply lookup_lt_Some in Hi'. rewrite (run_length _ _ _ _ Hrun) in Hi'.
    simpl in Hi'. by rewrite length_fmap in Hi'. }
  destruct (lookup_lt_is_Some_2 ds i Hlt) as [d Hd].
  assert (Hi : (Spawned <$> ds) !! i = Some (Spawned d)).
  { by rewrite list_lookup_fmap, Hd. }
  destruct (run_progress E sched _ p' i (Spawned d) Hrun Hi) as (g1 & Hg1 & Hle).
  rewrite Hi' in Hg1. inversion Hg1; subst g1.
  specialize (Hc i Hlt). simpl in Hle.
  destruct g'; simpl in Hle; try lia. reflexivity.
Qed.

Lemma Forall_Exited (rs : list goroutine) :
  Forall (fun g => g = Exited) rs ->
  forallb is_exited rs = true /\ length (List.filter is_exited rs) = length rs.
Proof.
  induction 1 as [|g rs -> _ [IH1 IH2]]; simpl; [done|].
  by rewrite IH1, IH2.
Qed.

Lemma none_exited_at_start (ds : list device) :
  length (List.filter is_exited (Spawned <$> ds)) = 0%nat.
Proof. induction ds as [|d ds IH]; simpl; [done|exact IH]. Qed.

(** C6: with the plugin initialised, if the poll of device [k] returns an
    error whenever it is made and the polls of all other devices return a
    field map, then under every schedule that lets each goroutine run to its
    end [Gather] returns nil; the accumulator has received exactly one
    [AddError], with an error of device [k], and exactly [N - 1] [AddFields],
    each under the name [broadcasttools] and without tags. *)
Theorem Gather_one_failure :
  forall (E : Env) (bt : BroadcastTools) (sched : list nat) (a : Accumulator)
         (t k : nat),
    initialized bt = true ->
    (k < length (devices bt))%nat ->
    (forall (i : nat) (d : device) (t0 : nat),
        devices bt !! i = Some d -> i <> k ->
        exists fields t1, device_poll E d t0 = Ret (Ok fields, t1)) ->
    (forall (d : device) (t0 : nat),
        devices bt !! k = Some d ->
        exists err t1, device_poll E d t0 = Ret (Err err, t1)) ->
    complete sched (length (devices bt)) ->
    exists (calls : list acc_call) (t' : nat),
      Gather E bt sched a t = Ret ((bt, (a ++ calls)%list, Returned None), t') /\
      length (List.filter is_AddError calls) = 1%nat /\
      length (List.filter is_AddFields calls) = (length (devices bt) - 1)%nat /\
      (forall m f tg, In (AddFields m f tg) calls ->
                      m = "broadcasttools" /\ tg = None) /\
      (forall err, In (AddError err) calls ->
                   exists d t0 t1, devices bt !! k = Some d /\
                                   device_poll E d t0 = Ret (Err err, t1)).
Proof.
  intros E bt sched a t k Hinit Hk Hok Herr Hc.
  set (p0 := {| routines := Spawned <$> devices bt; acc := a; now := t |}).
  destruct (run_Inv E (devices bt) k a Hok Herr sched p0)
    as (p' & Hrun & Hr & calls & Hacc & Hn & Hkx & Hf & He).
  { split.
    - intros i g Hi. simpl in Hi. rewrite list_lookup_fmap in Hi.
      destruct (devices bt !! i) eqn:Hd; inversion Hi; subst g. done.
    - exists []. split; [by rewrite app_nil_r|]. repeat split; try done; simpl.
      + by rewrite none_exited_at_start.
      + rewrite list_lookup_fmap. by destruct (devices bt !! k). }
  pose proof (run_complete E sched (devices bt) a t p' Hc Hrun) as Hall.
  pose proof (run_length E sched p0 p' Hrun) as Hlen.
  simpl in Hlen. rewrite length_fmap in Hlen.
  destruct (Forall_Exited _ Hall) as [Hb Hcount].
  exists calls, (now p'). split; [|split; [|split; [|split]]].
  - unfold Gather. rewrite Hinit. simpl. fold p0. rewrite Hrun, Hb, Hacc. reflexivity.
  - rewrite Hkx.
    destruct (lookup_lt_is_Some_2 (routines p') k ltac:(lia)) as [g Hg].
    rewrite Hg. rewrite Forall_lookup in Hall. by rewrite (Hall k g Hg).
  - assert (length (List.filter is_AddError calls) = 1%nat) as H1.
    { rewrite Hkx.
      destruct (lookup_lt_is_Some_2 (routines p') k ltac:(lia)) as [g Hg].
      rewrite Hg. rewrite Forall_lookup in Hall. by rewrite (Hall k g Hg). }
    lia.
  - exact Hf.
  - exact He.
Qed.

Lemma Gather_one_failure_witness :
  exists (calls : list acc_call) (t' : nat),
    Gather (bench.env bench.one_down) bench.three [0; 1; 2; 2; 1; 0]%nat [] 0%nat
      = Ret ((bench.three, ([] ++ calls)%list, Returned None), t') /\
    length (List.filter is_AddError calls) = 1%nat /\
    length (List.filter is_AddFields calls) = (length (devices bench.three) - 1)%nat /\
    (forall m f tg, In (AddFields m f tg) calls -> m = "broadcasttools" /\ tg = None) /\
    (forall err, In (AddError err) calls ->
                 exists d t0 t1, devices bench.three !! 1%nat = Some d /\
                                 device_poll (bench.env bench.one_down) d t0
                                 = Ret (Err err, t1)).
Proof.
  apply (Gather_one_failure (bench.env bench.one_down) bench.three
           [0; 1; 2; 2; 1; 0]%nat [] 0%nat 1%nat).
  - reflexivity.
  - simpl. lia.
  - intros i d t0 Hd Hne.
    destruct i as [|[|[|i]]]; simpl in Hd; try done; inversion Hd; subst d;
      eexists _, _; vm_compute; reflexivity.
  - intros d t0 Hd. simpl in Hd. inversion Hd; subst d.
    eexists _, _; vm_compute; reflexivity.
  - intros i Hi. simpl in Hi.
    destruct i as [|[|[|i]]]; simpl; lia.
Defined.

(** ** Initialisation *)

Lemma Dial_base (E : Env) (bt : BroadcastTools) (d d' : device)
    (e : option error) (t t' : nat) :
  Dial E bt d t = Ret ((d', e), t') -> base d' = base d.
Proof.
  unfold Dial, bind, ret. destruct (ck d); [by inversion 1|].
  destruct (send E d _ _ _ _ t) as [[[r|err] t1]|msg]; try done.
  - destruct (negb _); [by inversion 1|].
    destruct (http.Cookies r); by inversion 1.
  - by inversion 1.
Qed.

(** What the loop of [init] leaves behind: the devices dialled so far are
    appended, in the order of the URLs; the flag is set only when every URL
    has been dialled. *)
Lemma init_loop_inv (E : Env) (us : list string) (bt bt' : BroadcastTools)
    (e : option error) (t t' : nat) :
  init_loop E us bt t = Ret ((bt', e), t') ->
  URLs bt' = URLs bt /\
  exists dialled,
    devices bt' = (devices bt ++ dialled)%list /\
    dialled_from E (take (length dialled) us) dialled /\
    match e with
    | None => initialized bt' = true /\ length dialled = length us
    | Some _ => initialized bt' = initialized bt /\ (length dialled < length us)%nat
    end.
Proof.
  revert bt t. induction us as [|u us IH]; intros bt t; simpl.
  - unfold ret. inversion 1; subst. split; [done|]. exists []. simpl.
    rewrite app_nil_r. repeat split. constructor.
  - destruct (url_Parse E u) as [b|err] eqn:Hu.
    + unfold bind.
      destruct (Dial E bt _ t) as [[[d' e1] t1]|msg] eqn:HD; [|done]. simpl.
      destruct e1 as [err|].
      * unfold ret. inversion 1; subst. split; [done|]. exists []. simpl.
        rewrite app_nil_r. repeat split; [constructor|lia].
      * intros H. apply IH in H as (HU & dialled & Hd & Hf & He). simpl in *.
        split; [done|]. exists (d' :: dialled). simpl.
        split; [by rewrite Hd, <- app_assoc|]. split.
        -- constructor; [|done]. apply Dial_base in HD. simpl in HD. by rewrite HD.
        -- destruct e; simpl in *; [split; [tauto|lia]|split; [tauto|lia]].
    + unfold ret. inversion 1; subst. split; [done|]. exists []. simpl.
      rewrite app_nil_r. repeat split; [constructor|lia].
Qed.

(** Each goroutine that has exited has made one call of the accumulator. *)
Lemma step_calls (E : Env) (j : nat) (p p' : pool) :
  step E j p = Ret p' ->
  (length (acc p') + length (List.filter is_exited (routines p))
   = length (acc p) + length (List.filter is_exited (routines p')))%nat.
Proof.
  unfold step. intros Hs.
  destruct (routines p !! j) as [[d|[fields|err]|]|] eqn:Hj.
  - destruct (device_poll E d (now p)) as [[r t1]|msg]; [|done].
    inversion Hs; subst p'; simpl.
    pose proof (filter_length_insert is_exited _ _ _ (Polled r) Hj). simpl in *. lia.
  - inversion Hs; subst p'; simpl. rewrite length_app. simpl.
    pose proof (filter_length_insert is_exited _ _ _ Exited Hj). simpl in *. lia.
  - inversion Hs; subst p'; simpl. rewrite length_app. simpl.
    pose proof (filter_length_insert is_exited _ _ _ Exited Hj). simpl in *. lia.
  - inversion Hs; subst p'. lia.
  - inversion Hs; subst p'. lia.
Qed.

Lemma run_calls (E : Env) (sched : list nat) (p p' : pool) :
  run E sched p = Ret p' ->
  (length (acc p') + length (List.filter is_exited (routines p))
   = length (acc p) + length (List.filter is_exited (routines p')))%nat.
Proof.
  revert p. induction sched as [|j sched IH]; intros p Hrun; simpl in *.
  - by inversion Hrun.
  - destruct (step E j p) as [p1|msg] eqn:Hs; [|done].
    pose proof (step_calls E j p p1 Hs). pose proof (IH p1 Hrun). lia.
Qed.





(** The two cycles on the bench: the first [Gather] fails with the device at
    localhost dialled; the second one succeeds, holds that address twice and
    emits three field maps for two configured URLs. *)
Lemma second_cycle_polls_twice :
  let E := bench.env bench.flaky in
  Gather E bench.two [0; 1; 0; 1]%nat [] 0%nat
    = Ret ((bench.half, [], Returned (Some "authentication failed")), 2%nat) /\
  exists bt2 calls,
    Gather E bench.half [0; 1; 2; 0; 1; 2]%nat [] 2%nat
      = Ret ((bt2, calls, Returned None), 7%nat) /\
    base <$> devices bt2
      = [bench.localhost; bench.localhost; bench.plain "http" "10.0.0.2"] /\
    is_AddFields <$> calls = [true; true; true].
Proof.
  split; [vm_compute; reflexivity|].
  eexists _, _. split; [vm_compute; reflexivity|]. split; reflexivity.
Qed.

(** ** Bytes and bits *)

Lemma byte_val_bounds (c : ascii) : 0 <= byte_val c < 256.
Proof.
  unfold byte_val. pose proof (N_ascii_bounded c). lia.
Qed.

Lemma byte_val_of (z : Z) : 0 <= z < 256 -> byte_val (byte_of z) = z.
Proof.
  intros Hz. unfold byte_val, byte_of.
  rewrite Z.mod_small by done. rewrite N_ascii_embedding by lia. lia.
Qed.

Lemma byte_of_val (c : ascii) : byte_of (byte_val c) = c.
Proof.
  unfold byte_val, byte_of. pose proof (N_ascii_bounded c).
  rewrite Z.mod_small by lia. rewrite N2Z.id. apply ascii_N_embedding.
Qed.

(** Bits that do not overlap add up. *)
Lemma lor_disjoint (x y n m : Z) :
  m = 2 ^ n -> 0 <= n -> x mod m = 0 -> 0 <= y < m -> Z.lor x y = x + y.
Proof.
  intros -> Hn Hx Hy. rewrite <- Z.add_lor_land.
  assert (Hl : Z.land x y = 0); [|lia].
  apply Z.bits_inj'. intros i Hi. rewrite Z.land_spec, Z.bits_0.
  destruct (Z.lt_ge_cases i n) as [Hlt|Hge].
  - rewrite (Z.div_mod x (2 ^ n)) by lia. rewrite Hx, Z.add_0_r, Z.mul_comm.
    by rewrite Z.mul_pow2_bits_low.
  - destruct (Z.eq_dec y 0) as [->|Hy0]; [by rewrite Z.bits_0, andb_false_r|].
    rewrite (Z.bits_above_log2 y i), andb_false_r; [done|lia|].
    apply Z.lt_le_trans with n; [|done]. apply Z.log2_lt_pow2; lia.
Qed.

Lemma land_maskx (x : Z) : Z.land x utf8.maskx = x mod 64.
Proof. exact (Z.land_ones x 6 ltac:(lia)). Qed.

Lemma land_mask2 (x : Z) : Z.land x utf8.mask2 = x mod 32.
Proof. exact (Z.land_ones x 5 ltac:(lia)). Qed.

Lemma land_mask3 (x : Z) : Z.land x utf8.mask3 = x mod 16.
Proof. exact (Z.land_ones x 4 ltac:(lia)). Qed.

Lemma land_mask4 (x : Z) : Z.land x utf8.mask4 = x mod 8.
Proof. exact (Z.land_ones x 3 ltac:(lia)). Qed.

Lemma shiftr_6 (x : Z) : Z.shiftr x 6 = x / 64.
Proof. exact (Z.shiftr_div_pow2 x 6 ltac:(lia)). Qed.

Lemma shiftr_12 (x : Z) : Z.shiftr x 12 = x / 4096.
Proof. exact (Z.shiftr_div_pow2 x 12 ltac:(lia)). Qed.

Lemma shiftr_18 (x : Z) : Z.shiftr x 18 = x / 262144.
Proof. exact (Z.shiftr_div_pow2 x 18 ltac:(lia)). Qed.

Lemma shiftl_6 (x : Z) : Z.shiftl x 6 = x * 64.
Proof. exact (Z.shiftl_mul_pow2 x 6 ltac:(lia)). Qed.

Lemma shiftl_12 (x : Z) : Z.shiftl x 12 = x * 4096.
Proof. exact (Z.shiftl_mul_pow2 x 12 ltac:(lia)). Qed.

Lemma shiftl_18 (x : Z) : Z.shiftl x 18 = x * 262144.
Proof. exact (Z.shiftl_mul_pow2 x 18 ltac:(lia)). Qed.

(** Linear arithmetic with division and remainder by constants. *)
Ltac arith := Z.to_euclidean_division_equations; lia.

(** The continuation byte, in arithmetic. *)
Lemma cont_0 (r : Z) : utf8.cont r 0 = byte_of (128 + r mod 64).
Proof.
  unfold utf8.cont, utf8.tx. rewrite Z.shiftr_0_r, land_maskx. f_equal.
  rewrite (lor_disjoint 128 _ 6 64 eq_refl) by arith. arith.
Qed.

Lemma cont_6 (r : Z) : utf8.cont r 6 = byte_of (128 + (r / 64) mod 64).
Proof.
  unfold utf8.cont, utf8.tx. rewrite shiftr_6, land_maskx. f_equal.
  rewrite (lor_disjoint 128 _ 6 64 eq_refl) by arith. arith.
Qed.

Lemma cont_12 (r : Z) : utf8.cont r 12 = byte_of (128 + (r / 4096) mod 64).
Proof.
  unfold utf8.cont, utf8.tx. rewrite shiftr_12, land_maskx. f_equal.
  rewrite (lor_disjoint 128 _ 6 64 eq_refl) by arith. arith.
Qed.

(** [EncodeRune] on a valid rune, in arithmetic. *)
Lemma EncodeRune_1 (r : Z) :
  0 <= r < 128 -> utf8.EncodeRune r = String (byte_of r) EmptyString.
Proof.
  intros Hr. unfold utf8.EncodeRune, utf8.rune1Max.
  rewrite Z.mod_small by arith. destruct (Z.leb_spec r 127); [done|arith].
Qed.

Lemma EncodeRune_2 (r : Z) :
  128 <= r < 2048 ->
  utf8.EncodeRune r
  = String (byte_of (192 + r / 64)) (String (byte_of (128 + r mod 64)) EmptyString).
Proof.
  intros Hr. unfold utf8.EncodeRune, utf8.rune1Max, utf8.rune2Max, utf8.t2.
  rewrite Z.mod_small by arith.
  destruct (Z.leb_spec r 127); [arith|]. destruct (Z.leb_spec r 2047); [|arith].
  rewrite cont_0, shiftr_6. do 2 f_equal.
  rewrite (lor_disjoint 192 _ 5 32 eq_refl) by arith. arith.
Qed.

Lemma EncodeRune_3 (r : Z) :
  2048 <= r < 55296 \/ 57343 < r <= 65535 ->
  utf8.EncodeRune r
  = String (byte_of (224 + r / 4096))
      (String (byte_of (128 + (r / 64) mod 64))
         (String (byte_of (128 + r mod 64)) EmptyString)).
Proof.
  intros Hr.
  unfold utf8.EncodeRune, utf8.rune1Max, utf8.rune2Max, utf8.rune3Max,
    utf8.MaxRune, utf8.surrogateMin, utf8.surrogateMax, utf8.encode3, utf8.t3.
  rewrite Z.mod_small by arith.
  destruct (Z.leb_spec r 127); [arith|]. destruct (Z.leb_spec r 2047); [arith|].
  destruct (Z.ltb_spec 1114111 r); [arith|].
  destruct (Z.leb_spec 55296 r), (Z.leb_spec r 57343); simpl; try arith;
    (destruct (Z.leb_spec r 65535); [|arith]);
    rewrite cont_0, cont_6, shiftr_12; do 2 f_equal;
    rewrite (lor_disjoint 224 _ 4 16 eq_refl) by arith; arith.
Qed.

Lemma EncodeRune_4 (r : Z) :
  65535 < r <= 1114111 ->
  utf8.EncodeRune r
  = String (byte_of (240 + r / 262144))
      (String (byte_of (128 + (r / 4096) mod 64))
         (String (byte_of (128 + (r / 64) mod 64))
            (String (byte_of (128 + r mod 64)) EmptyString))).
Proof.
  intros Hr.
  unfold utf8.EncodeRune, utf8.rune1Max, utf8.rune2Max, utf8.rune3Max,
    utf8.MaxRune, utf8.surrogateMin, utf8.surrogateMax, utf8.encode4, utf8.t4.
  rewrite Z.mod_small by arith.
  destruct (Z.leb_spec r 127); [arith|]. destruct (Z.leb_spec r 2047); [arith|].
  destruct (Z.ltb_spec 1114111 r); [arith|].
  destruct (Z.leb_spec 55296 r), (Z.leb_spec r 57343); simpl; try arith;
    (destruct (Z.leb_spec r 65535); [arith|]);
    rewrite cont_0, cont_6, cont_12, shiftr_18; do 2 f_equal;
    rewrite (lor_disjoint 240 _ 3 8 eq_refl) by arith; arith.
Qed.

Lemma ValidRune_cases (r : Z) :
  utf8.ValidRune r = true ->
  0 <= r < 128 \/ 128 <= r < 2048 \/
  (2048 <= r < 55296 \/ 57343 < r <= 65535) \/ 65535 < r <= 1114111.
Proof.
  unfold utf8.ValidRune, utf8.surrogateMin, utf8.surrogateMax, utf8.MaxRune.
  intros H. apply orb_true_iff in H as [H|H]; apply andb_true_iff in H as [H1 H2]; arith.
Qed.

Ltac cmp :=
  repeat match goal with
  | |- context [?a <? ?b] => destruct (Z.ltb_spec a b); try arith
  | |- context [?a <=? ?b] => destruct (Z.leb_spec a b); try arith
  | |- context [?a =? ?b] => destruct (Z.eqb_spec a b); try arith
  end.

Lemma first_ascii (b : Z) : b < 128 -> utf8.first b = utf8.as_ascii.
Proof. intros H. unfold utf8.first. destruct (Z.ltb_spec b 128); [done|lia]. Qed.

Lemma first_lead2 (b : Z) :
  194 <= b < 224 -> utf8.first b = utf8.lead 2 utf8.locb utf8.hicb.
Proof. intros H. unfold utf8.first. by cmp. Qed.

Lemma first_lead3 (b : Z) :
  224 <= b < 240 ->
  utf8.first b = utf8.lead 3 (if b =? 224 then 160 else 128)
                             (if b =? 237 then 159 else 191).
Proof. intros H. unfold utf8.first, utf8.locb, utf8.hicb. by cmp. Qed.

Lemma first_lead4 (b : Z) :
  240 <= b < 245 ->
  utf8.first b = utf8.lead 4 (if b =? 240 then 144 else 128)
                             (if b =? 244 then 143 else 191).
Proof. intros H. unfold utf8.first, utf8.locb, utf8.hicb. by cmp. Qed.

Lemma app_String (a : ascii) (x y : string) : String a x ++ y = String a (x ++ y).
Proof. reflexivity. Qed.

Lemma app_Empty (y : string) : EmptyString ++ y = y.
Proof. reflexivity. Qed.

(** Decoding what [EncodeRune] wrote gives the rune back. *)
Lemma Decode_Encode (r : Z) (rest : string) :
  utf8.ValidRune r = true ->
  utf8.DecodeRuneInString (utf8.EncodeRune r ++ rest)
  = (r, String.length (utf8.EncodeRune r)).
Proof.
  intros Hv. destruct (ValidRune_cases r Hv) as [H|[H|[H|H]]].
  - rewrite EncodeRune_1 by done. rewrite !app_String, app_Empty. cbn [String.length].
    unfold utf8.DecodeRuneInString. rewrite byte_val_of by lia.
    by rewrite first_ascii by lia.
  - rewrite EncodeRune_2 by done. rewrite !app_String, app_Empty. cbn [String.length].
    unfold utf8.DecodeRuneInString. rewrite !byte_val_of by arith.
    rewrite first_lead2 by arith. cbn [String.length Nat.ltb Nat.leb].
    unfold utf8.locb, utf8.hicb.
    destruct (Z.ltb_spec (128 + r mod 64) 128); [arith|].
    destruct (Z.ltb_spec 191 (128 + r mod 64)); [arith|]. cbn [orb].
    rewrite land_mask2, land_maskx, shiftl_6. f_equal.
    rewrite (lor_disjoint _ _ 6 64 eq_refl) by arith. arith.
  - rewrite EncodeRune_3 by done. rewrite !app_String, app_Empty. cbn [String.length].
    unfold utf8.DecodeRuneInString. rewrite !byte_val_of by arith.
    rewrite first_lead3 by arith. cbn [String.length Nat.ltb Nat.leb].
    unfold utf8.is_cont, utf8.locb, utf8.hicb.
    assert (Hacc : (128 + (r / 64) mod 64 <? (if 224 + r / 4096 =? 224 then 160 else 128))
                   || ((if 224 + r / 4096 =? 237 then 159 else 191)
                       <? 128 + (r / 64) mod 64) = false).
    { apply orb_false_iff. split.
      - destruct (Z.eqb_spec (224 + r / 4096) 224); apply Z.ltb_ge; arith.
      - destruct (Z.eqb_spec (224 + r / 4096) 237); apply Z.ltb_ge; arith. }
    rewrite Hacc.
    destruct (Z.leb_spec 128 (128 + r mod 64)); [|arith].
    destruct (Z.leb_spec (128 + r mod 64) 191); [|arith]. cbn [andb negb].
    rewrite land_mask3, !land_maskx, shiftl_6, shiftl_12. f_equal.
    rewrite (lor_disjoint (_ * 4096) _ 12 4096 eq_refl) by arith.
    rewrite (lor_disjoint _ _ 6 64 eq_refl) by arith. arith.
  - rewrite EncodeRune_4 by done. rewrite !app_String, app_Empty. cbn [String.length].
    unfold utf8.DecodeRuneInString. rewrite !byte_val_of by arith.
    rewrite first_lead4 by arith. cbn [String.length Nat.ltb Nat.leb].
    unfold utf8.is_cont, utf8.locb, utf8.hicb.
    assert (Hacc : (128 + (r / 4096) mod 64
                    <? (if 240 + r / 262144 =? 240 then 144 else 128))
                   || ((if 240 + r / 262144 =? 244 then 143 else 191)
                       <? 128 + (r / 4096) mod 64) = false).
    { apply orb_false_iff. split.
      - destruct (Z.eqb_spec (240 + r / 262144) 240); apply Z.ltb_ge; arith.
      - destruct (Z.eqb_spec (240 + r / 262144) 244); apply Z.ltb_ge; arith. }
    rewrite Hacc.
    destruct (Z.leb_spec 128 (128 + (r / 64) mod 64)); [|arith].
    destruct (Z.leb_spec (128 + (r / 64) mod 64) 191); [|arith].
    destruct (Z.leb_spec 128 (128 + r mod 64)); [|arith].
    destruct (Z.leb_spec (128 + r mod 64) 191); [|arith]. cbn [andb negb].
    rewrite land_mask4, !land_maskx, shiftl_6, shiftl_12, shiftl_18. f_equal.
    rewrite (lor_disjoint (_ * 262144) _ 18 262144 eq_refl) by arith.
    rewrite (lor_disjoint (_ + _) (_ * 64) 12 4096 eq_refl) by arith.
    rewrite (lor_disjoint _ _ 6 64 eq_refl) by arith. arith.
Qed.

Lemma first_inv (b : Z) :
  match utf8.first b with
  | utf8.as_ascii => b < 128
  | utf8.xx => True
  | utf8.lead sz lo hi =>
    (sz = 2%nat /\ 194 <= b < 224 /\ lo = 128 /\ hi = 191) \/
    (sz = 3%nat /\ 224 <= b < 240 /\
     lo = (if b =? 224 then 160 else 128) /\ hi = (if b =? 237 then 159 else 191)) \/
    (sz = 4%nat /\ 240 <= b < 245 /\
     lo = (if b =? 240 then 144 else 128) /\ hi = (if b =? 244 then 143 else 191))
  end.
Proof.
  unfold utf8.first, utf8.locb, utf8.hicb.
  repeat match goal with
  | |- context [if ?a <? ?c then _ else _] => destruct (Z.ltb_spec a c)
  | |- context [if ?a =? ?c then _ else _] => destruct (Z.eqb_spec a c)
  end; try done; try lia;
  first [ left; repeat split; try done; lia
        | right; left; repeat split; try done; lia
        | right; right; repeat split; try done; lia ].
Qed.

Lemma ValidRune_intro (r : Z) :
  0 <= r < 55296 \/ 57343 < r <= 1114111 -> utf8.ValidRune r = true.
Proof.
  intros H. unfold utf8.ValidRune, utf8.surrogateMin, utf8.surrogateMax, utf8.MaxRune.
  apply orb_true_iff. destruct H as [H|H]; [left|right]; apply andb_true_iff; lia.
Qed.

(** Whatever the bytes, decoding yields a rune that can be encoded. *)
Lemma Decode_valid (s : string) :
  utf8.ValidRune (fst (utf8.DecodeRuneInString s)) = true.
Proof.
  unfold utf8.DecodeRuneInString.
  destruct s as [|c0 r0]; [done|].
  pose proof (byte_val_bounds c0) as B0. pose proof (first_inv (byte_val c0)) as Hf.
  destruct (utf8.first (byte_val c0)) as [| |sz lo hi]; [|done|].
  { apply ValidRune_intro. simpl. lia. }
  destruct (String.length (String c0 r0) <? sz)%nat; [done|].
  destruct r0 as [|c1 r1]; [done|]. pose proof (byte_val_bounds c1) as B1.
  destruct (Z.ltb_spec (byte_val c1) lo); [done|].
  destruct (Z.ltb_spec hi (byte_val c1)); [done|]. cbn [orb].
  destruct Hf as [(-> & Hb & -> & ->)|[(-> & Hb & -> & ->)|(-> & Hb & -> & ->)]].
  - cbn [Nat.leb fst]. apply ValidRune_intro.
    rewrite land_mask2, land_maskx, shiftl_6.
    rewrite (lor_disjoint _ _ 6 64 eq_refl) by arith. arith.
  - cbn [Nat.leb].
    destruct r1 as [|c2 r2]; [done|]. pose proof (byte_val_bounds c2) as B2.
    unfold utf8.is_cont, utf8.locb, utf8.hicb.
    destruct (Z.leb_spec 128 (byte_val c2)); [|done].
    destruct (Z.leb_spec (byte_val c2) 191); [|done]. cbn [andb negb fst].
    apply ValidRune_intro.
    rewrite land_mask3, !land_maskx, shiftl_6, shiftl_12.
    rewrite (lor_disjoint (_ * 4096) _ 12 4096 eq_refl) by arith.
    rewrite (lor_disjoint _ _ 6 64 eq_refl) by arith.
    destruct (Z.eqb_spec (byte_val c0) 224), (Z.eqb_spec (byte_val c0) 237); arith.
  - cbn [Nat.leb].
    destruct r1 as [|c2 r2]; [done|]. pose proof (byte_val_bounds c2) as B2.
    unfold utf8.is_cont, utf8.locb, utf8.hicb.
    destruct (Z.leb_spec 128 (byte_val c2)); [|done].
    destruct (Z.leb_spec (byte_val c2) 191); [|done]. cbn [andb negb].
    destruct r2 as [|c3 r3]; [done|]. pose proof (byte_val_bounds c3) as B3.
    destruct (Z.leb_spec 128 (byte_val c3)); [|done].
    destruct (Z.leb_spec (byte_val c3) 191); [|done]. cbn [andb negb fst].
    apply ValidRune_intro.
    rewrite land_mask4, !land_maskx, shiftl_6, shiftl_12, shiftl_18.
    rewrite (lor_disjoint (_ * 262144) _ 18 262144 eq_refl) by arith.
    rewrite (lor_disjoint (_ + _) (_ * 64) 12 4096 eq_refl) by arith.
    rewrite (lor_disjoint _ _ 6 64 eq_refl) by arith.
    destruct (Z.eqb_spec (byte_val c0) 240), (Z.eqb_spec (byte_val c0) 244); arith.
Qed.

(** ** Runes of a string *)

Lemma range_from_skip (x y : string) :
  utf8.range_from (String.length x) (x ++ y) = utf8.range_from 0 y.
Proof. induction x as [|c x IH]; [done|]. exact IH. Qed.

Lemma range_valid (k : nat) (s : string) :
  Forall (fun r => utf8.ValidRune r = true) (utf8.range_from k s).
Proof.
  revert k. induction s as [|c s IH]; intros k; cbn [utf8.range_from]; [constructor|].
  destruct k as [|k]; [|apply IH].
  pose proof (Decode_valid (String c s)) as Hv.
  destruct (utf8.DecodeRuneInString (String c s)) as [r w].
  constructor; [exact Hv|apply IH].
Qed.

Lemma EncodeRune_nonempty (r : Z) :
  utf8.ValidRune r = true -> exists c e, utf8.EncodeRune r = String c e.
Proof.
  intros Hv. destruct (ValidRune_cases r Hv) as [H|[H|[H|H]]].
  - rewrite EncodeRune_1 by done. eauto.
  - rewrite EncodeRune_2 by done. eauto.
  - rewrite EncodeRune_3 by done. eauto.
  - rewrite EncodeRune_4 by done. eauto.
Qed.

Lemma range_Encode (r : Z) (rest : string) :
  utf8.ValidRune r = true ->
  utf8.range_from 0 (utf8.EncodeRune r ++ rest) = r :: utf8.range_from 0 rest.
Proof.
  intros Hv. pose proof (Decode_Encode r rest Hv) as Hd.
  destruct (EncodeRune_nonempty r Hv) as (c & e & He). rewrite He in *.
  rewrite app_String in *. cbn [utf8.range_from]. rewrite Hd.
  cbn [String.length Nat.pred]. by rewrite range_from_skip.
Qed.

(** Reading back what [Map] wrote gives the images of the runes. *)
Lemma range_write_runes (f : Z -> Z) (rs : list Z) :
  Forall (fun r => utf8.ValidRune (f r) = true) rs ->
  utf8.range (strings.write_runes f rs) = List.map f rs.
Proof.
  unfold utf8.range. induction 1 as [|r rs Hr _ IH]; [done|].
  cbn [strings.write_runes List.map].
  assert (H0 : (0 <=? f r) = true).
  { apply Z.leb_le. destruct (ValidRune_cases _ Hr) as [H|[H|[H|H]]]; lia. }
  rewrite H0, range_Encode by done. by rewrite IH.
Qed.

Lemma write_runes_ext (f g : Z -> Z) (rs : list Z) :
  Forall (fun r => f r = g r) rs ->
  strings.write_runes f rs = strings.write_runes g rs.
Proof.
  induction 1 as [|r rs Hr _ IH]; [done|].
  cbn [strings.write_runes]. by rewrite Hr, IH.
Qed.

Lemma write_runes_map (f g : Z -> Z) (rs : list Z) :
  strings.write_runes f (List.map g rs) = strings.write_runes (fun r => f (g r)) rs.
Proof.
  induction rs as [|r rs IH]; [done|].
  cbn [strings.write_runes List.map]. by rewrite IH.
Qed.

(** ** Lower-casing and replacing, rune by rune *)

Lemma is_upper_spec (c : ascii) :
  is_upper c = (65 <=? byte_val c) && (byte_val c <=? 90).
Proof. reflexivity. Qed.

Lemma ascii_lower_no_upper (s : string) :
  string_existsb is_upper s = false -> string_map strings.ascii_lower s = s.
Proof.
  induction s as [|c s IH]; [done|]. cbn [string_existsb string_map].
  intros H. apply orb_false_iff in H as [Hc Hs].
  unfold strings.ascii_lower at 1. by rewrite Hc, IH.
Qed.

(** On an ASCII-only string [Map(unicode.ToLower, s)] is the byte-wise
    lower-casing. *)
Lemma Map_ascii (tbl : Z -> Z) (s : string) :
  string_forallb (fun c => byte_val c <? utf8.RuneSelf) s = true ->
  strings.Map (unicode.ToLower tbl) s = string_map strings.ascii_lower s.
Proof.
  unfold strings.Map, utf8.range.
  induction s as [|c s IH]; [done|]. cbn [string_forallb].
  intros H. apply andb_true_iff in H as [Hc Hs]. unfold utf8.RuneSelf in Hc.
  apply Z.ltb_lt in Hc. pose proof (byte_val_bounds c) as Hb.
  cbn [utf8.range_from string_map].
  assert (Hd : utf8.DecodeRuneInString (String c s) = (byte_val c, 1%nat)).
  { unfold utf8.DecodeRuneInString. by rewrite first_ascii. }
  rewrite Hd. cbn [Nat.pred strings.write_runes].
  rewrite IH by done.
  unfold unicode.ToLower, unicode.MaxASCII, strings.ascii_lower.
  rewrite is_upper_spec.
  destruct (Z.leb_spec (byte_val c) 127); [|lia].
  destruct ((65 <=? byte_val c) && (byte_val c <=? 90)) eqn:Hu.
  - apply andb_true_iff in Hu as [H1 H2].
    destruct (Z.leb_spec 0 (byte_val c + 32)); [|lia].
    rewrite EncodeRune_1 by lia. reflexivity.
  - destruct (Z.leb_spec 0 (byte_val c)); [|lia].
    rewrite EncodeRune_1 by lia. by rewrite byte_of_val.
Qed.

(** [ToLower] is [Map(unicode.ToLower, s)] on every string: the ASCII path
    is a shortcut. *)
Lemma ToLower_Map (tbl : Z -> Z) (s : string) :
  strings.ToLower tbl s = strings.Map (unicode.ToLower tbl) s.
Proof.
  unfold strings.ToLower.
  destruct (string_forallb (fun c => byte_val c <? utf8.RuneSelf) s) eqn:Ha; [|done].
  rewrite Map_ascii by done.
  destruct (string_existsb is_upper s) eqn:Hu; [done|].
  by rewrite ascii_lower_no_upper.
Qed.

Lemma HasPrefix_empty (s : string) : strings.HasPrefix s EmptyString = true.
Proof. by destruct s. Qed.

(** Replacing every space by an underscore is a byte-wise map. *)
Lemma ReplaceAll_space (s : string) :
  strings.ReplaceAll s " " "_" = string_map underscore_byte s.
Proof.
  unfold strings.ReplaceAll.
  induction s as [|c s IH]; [done|].
  cbn [strings.replace_from string_map strings.HasPrefix String.length Nat.pred].
  unfold underscore_byte at 1. rewrite Ascii.eqb_sym, HasPrefix_empty.
  destruct (Ascii.eqb c " "); cbn [andb]; by rewrite IH.
Qed.

Lemma string_map_app (f : ascii -> ascii) (x y : string) :
  string_map f (x ++ y) = string_map f x ++ string_map f y.
Proof.
  induction x as [|c x IH]; [done|].
  rewrite !app_String. cbn [string_map]. by rewrite app_String, IH.
Qed.

Lemma underscore_byte_high (z : Z) :
  128 <= z < 256 -> underscore_byte (byte_of z) = byte_of z.
Proof.
  intros Hz. unfold underscore_byte.
  destruct (Ascii.eqb_spec (byte_of z) " ") as [He|]; [|done].
  apply (f_equal byte_val) in He. rewrite byte_val_of in He by lia.
  change (byte_val " ") with 32 in He. lia.
Qed.

Lemma underscore_byte_low (z : Z) :
  0 <= z < 128 -> underscore_byte (byte_of z) = byte_of (underscore_rune z).
Proof.
  intros Hz. unfold underscore_byte, underscore_rune.
  destruct (Z.eqb_spec z 32) as [->|Hne]; [reflexivity|].
  destruct (Ascii.eqb_spec (byte_of z) " ") as [He|]; [|done].
  apply (f_equal byte_val) in He. rewrite byte_val_of in He by lia.
  change (byte_val " ") with 32 in He. lia.
Qed.

(** The replacement, on the encoding of one rune. *)
Lemma underscore_Encode (r : Z) :
  utf8.ValidRune r = true ->
  string_map underscore_byte (utf8.EncodeRune r)
  = utf8.EncodeRune (underscore_rune r).
Proof.
  intros Hv. destruct (ValidRune_cases r Hv) as [H|[H|[H|H]]].
  - rewrite !EncodeRune_1; [|unfold underscore_rune; destruct (r =? 32); lia|done].
    cbn [string_map]. by rewrite underscore_byte_low.
  - assert (underscore_rune r = r) as ->.
    { unfold underscore_rune. destruct (Z.eqb_spec r 32); [lia|done]. }
    rewrite EncodeRune_2 by done. cbn [string_map].
    by rewrite !underscore_byte_high by arith.
  - assert (underscore_rune r = r) as ->.
    { unfold underscore_rune. destruct (Z.eqb_spec r 32); [lia|done]. }
    rewrite EncodeRune_3 by done. cbn [string_map].
    by rewrite !underscore_byte_high by arith.
  - assert (underscore_rune r = r) as ->.
    { unfold underscore_rune. destruct (Z.eqb_spec r 32); [lia|done]. }
    rewrite EncodeRune_4 by done. cbn [string_map].
    by rewrite !underscore_byte_high by arith.
Qed.

Lemma underscore_write_runes (f : Z -> Z) (rs : list Z) :
  Forall (fun r => utf8.ValidRune (f r) = true) rs ->
  string_map underscore_byte (strings.write_runes f rs)
  = strings.write_runes (fun r => underscore_rune (f r)) rs.
Proof.
  induction 1 as [|r rs Hr _ IH]; [done|].
  cbn [strings.write_runes]. rewrite string_map_app, IH.
  assert (H0 : 0 <= f r).
  { destruct (ValidRune_cases _ Hr) as [H|[H|[H|H]]]; lia. }
  assert (H1 : 0 <= underscore_rune (f r)).
  { unfold underscore_rune. destruct (f r =? 32); lia. }
  destruct (Z.leb_spec 0 (f r)); [|lia].
  destruct (Z.leb_spec 0 (underscore_rune (f r))); [|lia].
  by rewrite underscore_Encode.
Qed.

Lemma underscore_rune_valid (r : Z) :
  utf8.ValidRune r = true -> utf8.ValidRune (underscore_rune r) = true.
Proof. unfold underscore_rune. by destruct (r =? 32). Qed.

(** ** keyify *)

Section keyify_runes.

Variable E : Env.
Hypothesis table : table_ok (lower_table E).

Let lo : Z -> Z := unicode.ToLower (lower_table E).
Let norm (r : Z) : Z := underscore_rune (lo r).

Lemma lower_valid_idem (r : Z) :
  utf8.ValidRune r = true -> utf8.ValidRune (lo r) = true /\ lo (lo r) = lo r.
Proof.
  intros Hv. unfold lo.
  destruct (Z.leb_spec r 127) as [Hr|Hr].
  - assert (0 <= r) by (destruct (ValidRune_cases r Hv) as [H|[H|[H|H]]]; lia).
    unfold unicode.ToLower, unicode.MaxASCII.
    destruct (Z.leb_spec r 127); [|lia].
    destruct ((65 <=? r) && (r <=? 90)) eqn:Hu.
    + apply andb_true_iff in Hu as [H1 H2]. split; [apply ValidRune_intro; lia|].
      destruct (Z.leb_spec (r + 32) 127); [|lia].
      destruct (Z.leb_spec (r + 32) 90); [lia|]. by rewrite andb_false_r.
    + split; [done|]. destruct (Z.leb_spec r 127); [|lia]. by rewrite Hu.
  - assert (Heq : unicode.ToLower (lower_table E) r = lower_table E r).
    { unfold unicode.ToLower, unicode.MaxASCII. destruct (Z.leb_spec r 127); [lia|done]. }
    rewrite Heq. by apply table.
Qed.

Lemma norm_valid (r : Z) : utf8.ValidRune r = true -> utf8.ValidRune (norm r) = true.
Proof.
  intros Hv. apply underscore_rune_valid. by apply lower_valid_idem.
Qed.

Lemma norm_idem (r : Z) : utf8.ValidRune r = true -> norm (norm r) = norm r.
Proof.
  intros Hv. destruct (lower_valid_idem r Hv) as [_ Hi]. unfold norm, underscore_rune.
  destruct (Z.eqb_spec (lo r) 32) as [H32|Hne].
  - reflexivity.
  - by rewrite Hi, (proj2 (Z.eqb_neq _ _) Hne).
Qed.

(** [keyify], rune by rune: each rune is lower-cased and, if it is a space,
    replaced by an underscore. *)
Lemma keyify_runes (s : string) :
  keyify E s = strings.write_runes norm (utf8.range s).
Proof.
  unfold keyify. rewrite ReplaceAll_space, ToLower_Map. unfold strings.Map.
  rewrite underscore_write_runes; [done|].
  eapply Forall_impl; [apply range_valid|]. intros r Hr. by apply lower_valid_idem.
Qed.

Lemma keyify_keyify (s : string) : keyify E (keyify E s) = keyify E s.
Proof.
  rewrite (keyify_runes (keyify E s)), (keyify_runes s).
  pose proof (range_valid 0 s) as Hv. fold (utf8.range s) in Hv.
  rewrite range_write_runes
    by (eapply Forall_impl; [exact Hv|]; intros r Hr; by apply norm_valid).
  rewrite write_runes_map. apply write_runes_ext.
  eapply Forall_impl; [exact Hv|]. intros r Hr. by apply norm_idem.
Qed.

End keyify_runes.

(** C8: [keyify] maps [Temp Sensor 01] to [temp_sensor_01], and applying it
    twice is applying it once, on every string, whatever its bytes; the case
    table of the [unicode] package is taken to keep runes encodable and to
    yield runes that lower-casing leaves alone. *)
Theorem keyify_idempotent :
  forall E : Env,
    table_ok (lower_table E) ->
    (forall x : string, keyify E (keyify E x) = keyify E x) /\
    keyify E "Temp Sensor 01" = "temp_sensor_01".
Proof.
  intros E Ht. split; [|reflexivity].
  intros x. by apply keyify_keyify.
Qed.

Lemma latin1_table_ok : table_ok bench.latin1.
Proof.
  intros r Hr Hv. unfold unicode.MaxASCII in Hr.
  assert (Hc : 127 < r < 55296 \/ 57343 < r <= 1114111).
  { destruct (ValidRune_cases r Hv) as [H|[H|[H|H]]]; lia. }
  unfold unicode.ToLower, unicode.MaxASCII, bench.latin1.
  destruct ((192 <=? r) && (r <=? 222) && negb (r =? 215)) eqn:Hu.
  - apply andb_true_iff in Hu as [Hu H3]. apply andb_true_iff in Hu as [H1 H2].
    split; [apply ValidRune_intro; lia|].
    destruct (Z.leb_spec (r + 32) 127); [lia|].
    destruct (Z.leb_spec (r + 32) 222); [lia|]. by rewrite andb_false_r.
  - split; [done|]. destruct (Z.leb_spec r 127); [lia|]. by rewrite Hu.
Qed.

Lemma keyify_idempotent_witness :
  table_ok (lower_table (bench.env bench.steady)) /\
  (forall x : string,
      keyify (bench.env bench.steady) (keyify (bench.env bench.steady) x)
      = keyify (bench.env bench.steady) x) /\
  keyify (bench.env bench.steady) "Temp Sensor 01" = "temp_sensor_01".
Proof.
  split; [exact latin1_table_ok|].
  exact (keyify_idempotent (bench.env bench.steady) latin1_table_ok).
Defined.

(** ** The order of the rules is immaterial *)

Lemma Gather_rules_cons_none (E : Env) (x : regexp.Regexp * parser)
    (l : list (regexp.Regexp * parser)) (values : gmap string value)
    (key : string) (name : value) (fields : gmap string value) :
  Forall (fun r => regexp.MatchString (fst r) key = false) l ->
  Gather_rules E (x :: l) values key name fields
  = Gather_rules E [x] values key name fields.
Proof.
  intros Hl. destruct x as [reg p]. cbn [Gather_rules].
  destruct (length (regexp.FindStringSubmatch reg key) <? 2)%nat;
    [by apply Gather_rules_none|].
  destruct (strconv.Atoi _) as [index [e|]]; [by apply Gather_rules_none|].
  destruct (p values index) as [v|msg]; [|done].
  destruct (as_string name) as [label|msg]; [|done].
  by apply Gather_rules_none.
Qed.

Lemma matching_cons_le_1 (key : string) (x : regexp.Regexp * parser)
    (l : list (regexp.Regexp * parser)) :
  (length (matching key (x :: l)) <= 1)%nat ->
  (length (matching key l) <= 1)%nat /\
  (regexp.MatchString (fst x) key = true ->
   Forall (fun r => regexp.MatchString (fst r) key = false) l).
Proof.
  unfold matching. cbn [List.filter].
  destruct (regexp.MatchString (fst x) key); cbn [length]; intros H.
  - split; [lia|]. intros _. apply matching_nil_inv. unfold matching.
    destruct (List.filter _ l); [done|simpl in H; lia].
  - split; [done|discriminate].
Qed.

(** Enumerating rules of which at most one matches the key, in one order or
    another, gives the same field map (or the same panic). *)
Lemma Gather_rules_Permutation (E : Env) (l l' : list (regexp.Regexp * parser))
    (values : gmap string value) (key : string) (name : value)
    (fields : gmap string value) :
  Permutation l l' ->
  (length (matching key l) <= 1)%nat ->
  Gather_rules E l values key name fields = Gather_rules E l' values key name fields.
Proof.
  intros Hp. revert fields.
  induction Hp as [|x l l' Hp IH|x y l|l l' l'' Hp1 IH1 Hp2 IH2]; intros fields Hm.
  - done.
  - destruct (matching_cons_le_1 key x l Hm) as [Hl Hx].
    destruct (regexp.MatchString (fst x) key) eqn:Hmx.
    + specialize (Hx eq_refl).
      assert (Hx' : Forall (fun r => regexp.MatchString (fst r) key = false) l').
      { by rewrite <- Hp. }
      rewrite (Gather_rules_cons_none E x l) by done.
      by rewrite (Gather_rules_cons_none E x l').
    + destruct x as [reg p]. rewrite !Gather_rules_skip by done. by apply IH.
  - destruct (matching_cons_le_1 key y (x :: l) Hm) as [Hl Hy].
    destruct (matching_cons_le_1 key x l Hl) as [Hl' Hx].
    destruct (regexp.MatchString (fst y) key) eqn:Hmy.
    + specialize (Hy eq_refl). inversion Hy as [|? ? Hmx Hrest]; subst.
      rewrite (Gather_rules_cons_none E y (x :: l)) by done.
      destruct x as [rx px]. rewrite (Gather_rules_skip E rx px) by done.
      by rewrite (Gather_rules_cons_none E y l).
    + destruct y as [ry py]. rewrite (Gather_rules_skip E ry py) by done.
      destruct (regexp.MatchString (fst x) key) eqn:Hmx.
      * specialize (Hx eq_refl).
        rewrite (Gather_rules_cons_none E x l) by done.
        rewrite (Gather_rules_cons_none E x ((ry, py) :: l)); [done|].
        by constructor.
      * destruct x as [rx px]. by rewrite !(Gather_rules_skip E rx px), Gather_rules_skip.
  - rewrite IH1 by done. apply IH2.
    by rewrite <- (Permutation_length (matching_Permutation key _ _ Hp1)).
Qed.

(** In whatever order [range parsers] yields the five rules, the inner loop
    of [Gather] computes what it computes in the order of the source text. *)
Lemma Gather_rules_any_order (E : Env) (rules : list (regexp.Regexp * parser))
    (values : gmap string value) (key : string) (name : value)
    (fields : gmap string value) :
  Permutation rules parsers ->
  Gather_rules E rules values key name fields
  = Gather_rules E parsers values key name fields.
Proof.
  intros Hp. apply Gather_rules_Permutation; [done|].
  rewrite (Permutation_length (matching_Permutation key _ _ Hp)).
  apply matching_parsers_le_1.
Qed.

(** ** A goroutine and the method it runs *)

(** The two steps of a goroutine are the method [Gather] of its device,
    followed by [AddError] when the method returns an error. *)
Lemma goroutine_runs_device_Gather (E : Env) (i : nat) (p : pool) (d : device) :
  routines p !! i = Some (Spawned d) ->
  run E [i; i] p
  = match device_Gather E d (acc p) (now p) with
    | Panic msg => Panic msg
    | Ret ((a, None), t) =>
      Ret {| routines := <[i := Exited]> (routines p); acc := a; now := t |}
    | Ret ((a, Some err), t) =>
      Ret {| routines := <[i := Exited]> (routines p);
             acc := (a ++ [AddError err])%list; now := t |}
    end.
Proof.
  intros Hi. assert (Hlt : (i < length (routines p))%nat) by (by eapply lookup_lt_Some).
  unfold device_Gather, bind, ret. cbn [run]. unfold step at 1. rewrite Hi.
  destruct (device_poll E d (now p)) as [[[fields|err] t]|msg]; [| |done];
    unfold step; cbn [routines acc now];
    rewrite list_lookup_insert_eq by done;
    by rewrite list_insert_insert_eq.
Qed.

(** * Further properties of the plugin *)

(** ** Requests built by [send] *)

Lemma send_request_inv :
  forall (E : Env) (d : device) (method path : string) (data : option string)
         (sendCookie : bool) (r : http.Request),
    send_request E d method path data sendCookie = Ret (Ok r) ->
    http.Method r = method /\
    http.ReqBody r = data /\
    http.ReqCookies r = (if sendCookie then
                           match ck d with Some k => [k] | None => [] end
                         else []) /\
    (sendCookie = true -> is_Some (ck d)) /\
    http.Header r !! "Content-Type"
    = (if String.eqb method http.MethodPost
       then Some "application/x-www-form-urlencoded" else None).
Proof.
  intros E d method path data sendCookie r. unfold send_request, NewRequest.
  destruct (url_Parse E _) as [u|e]; [|done].
  destruct sendCookie.
  - unfold http.AddCookie. destruct (ck d) as [k|]; [|done].
    intros H. inversion H; subst r; clear H.
    destruct (String.eqb method http.MethodPost); cbn; repeat split; eauto.
  - intros H. inversion H; subst r; clear H.
    destruct (String.eqb method http.MethodPost); cbn; repeat split; eauto; done.
Qed.

(** The request that [send] builds carries the method and the body it was
    given, the session cookie exactly when [sendCookie] is set, and the form
    content type exactly when the method is POST. *)
Theorem send_request_shape :
  forall (E : Env) (d : device) (method path : string) (data : option string)
         (sendCookie : bool) (r : http.Request),
    send_request E d method path data sendCookie = Ret (Ok r) ->
    http.Method r = method /\
    http.ReqBody r = data /\
    http.ReqCookies r = (if sendCookie then
                           match ck d with Some k => [k] | None => [] end
                         else []) /\
    (sendCookie = true -> is_Some (ck d)) /\
    http.Header r !! "Content-Type"
    = (if String.eqb method http.MethodPost
       then Some "application/x-www-form-urlencoded" else None).
Proof.
  intros E d method path data sendCookie r H.
  exact (send_request_inv E d method path data sendCookie r H).
Qed.

Lemma send_request_shape_witness :
  exists r : http.Request,
    send_request (bench.env bench.steady) (bench.logged_in bench.localhost)
      http.MethodGet "/cgi-bin/getexchanger_monitor.cgi" None true = Ret (Ok r) /\
    http.Method r = http.MethodGet /\
    http.ReqBody r = None /\
    http.ReqCookies r = [bench.session] /\
    http.Header r !! "Content-Type" = None.
Proof.
  eexists. split; [vm_compute; reflexivity|].
  pose proof (send_request_shape (bench.env bench.steady)
                (bench.logged_in bench.localhost) http.MethodGet
                "/cgi-bin/getexchanger_monitor.cgi" None true _ eq_refl)
    as (H1 & H2 & H3 & _ & H5).
  repeat split; assumption.
Defined.

(** What a returning [send] has done: either the URL did not parse and
    nothing went out, or the request built by [send_request] went out through
    the client and the answer of the network came back. *)
Lemma send_inv (E : Env) (d : device) (method path : string) (data : option string)
    (sendCookie : bool) (t t' : nat) (res : result http.Response) :
  send E d method path data sendCookie t = Ret (res, t') ->
  (exists e, send_request E d method path data sendCookie = Ret (Err e) /\
             res = Err e /\ t' = t) \/
  (exists req, send_request E d method path data sendCookie = Ret (Ok req) /\
               is_Some (c d) /\ res = RoundTrip E t req /\ t' = S t).
Proof.
  unfold send.
  destruct (send_request E d method path data sendCookie) as [[req|e]|msg]; [| |done].
  - unfold Do. destruct (c d) as [cl|]; [|done].
    intros H. inversion H; subst. right. exists req. eauto.
  - unfold ret. intros H. inversion H; subst. left. eauto.
Qed.

(** ** Login *)

(** A login that returns nil sent one request and stored a cookie. *)
Lemma Dial_success_inv (E : Env) (bt : BroadcastTools) (d d' : device) (t t' : nat) :
  Dial E bt d t = Ret ((d', None), t') ->
  ck d = None /\ t' = S t /\ exists k, d' = set_ck d (Some k).
Proof.
  unfold Dial. destruct (ck d) as [k0|] eqn:Hck; [by inversion 1|].
  unfold bind.
  destruct (send E d _ _ _ _ t) as [[res t1]|msg] eqn:Hs; [|done].
  apply send_inv in Hs as [(e & _ & -> & ->)|(req & Hreq & _ & -> & ->)];
    [by inversion 1|].
  destruct (RoundTrip E t req) as [r|e] eqn:Hr; [|by inversion 1].
  destruct (negb _); [by inversion 1|].
  destruct (http.Cookies r) as [|k rest] eqn:Hc; [by inversion 1|].
  unfold ret. intros H. inversion H; subst. eauto.
Qed.

(** A login that returns nil started without a cookie and sent exactly one
    request: a POST with the form content type, without any cookie, whose body
    is the access value and the escaped credentials; the answer had status 200
    and at least one cookie, and the first cookie is what the device now
    holds, its base address and client being as before. *)
Theorem Dial_success :
  forall (E : Env) (bt : BroadcastTools) (d d' : device) (t t' : nat),
    Dial E bt d t = Ret ((d', None), t') ->
    ck d = None /\ t' = S t /\
    exists (req : http.Request) (r : http.Response) (k : http.Cookie)
           (rest : list http.Cookie),
      RoundTrip E t req = Ok r /\
      http.Method req = http.MethodPost /\
      http.ReqCookies req = [] /\
      http.ReqBody req
      = Some ("AccessVal=&LoginPass=" ++ url.escape (Password bt) url.encodeQueryComponent
              ++ "&LoginUser=" ++ url.escape (User bt) url.encodeQueryComponent) /\
      http.Header req !! "Content-Type" = Some "application/x-www-form-urlencoded" /\
      http.StatusCode r = http.StatusOK /\
      http.Cookies r = k :: rest /\
      d' = set_ck d (Some k).
Proof.
  intros E bt d d' t t'. unfold Dial.
  destruct (ck d) as [k0|] eqn:Hck; [by inversion 1|].
  unfold bind.
  destruct (send E d _ _ _ _ t) as [[res t1]|msg] eqn:Hs; [|done].
  apply send_inv in Hs as [(e & _ & -> & ->)|(req & Hreq & _ & -> & ->)];
    [by inversion 1|].
  destruct (RoundTrip E t req) as [r|e] eqn:Hr; [|by inversion 1].
  destruct (Z.eqb_spec (http.StatusCode r) http.StatusOK) as [Hst|Hst];
    cbn [negb]; [|by inversion 1].
  destruct (http.Cookies r) as [|k rest] eqn:Hc; [by inversion 1|].
  unfold ret. intros H. inversion H; subst; clear H.
  split; [done|]. split; [done|]. exists req, r, k, rest.
  destruct (send_request_inv _ _ _ _ _ _ _ Hreq) as (Hm & Hb & Hk & _ & Hh).
  repeat split; try done.
Qed.

Lemma Dial_success_witness :
  Dial (bench.env bench.steady) (bench.plugin []) (bench.fresh bench.localhost) 0%nat
    = Ret ((bench.logged_in bench.localhost, None), 1%nat) /\
  exists (req : http.Request) (r : http.Response) (k : http.Cookie)
         (rest : list http.Cookie),
    RoundTrip (bench.env bench.steady) 0%nat req = Ok r /\
    http.ReqBody req = Some "AccessVal=&LoginPass=password&LoginUser=admin" /\
    bench.logged_in bench.localhost = set_ck (bench.fresh bench.localhost) (Some k).
Proof.
  assert (H : Dial (bench.env bench.steady) (bench.plugin [])
                (bench.fresh bench.localhost) 0%nat
              = Ret ((bench.logged_in bench.localhost, None), 1%nat))
    by (vm_compute; reflexivity).
  split; [exact H|].
  destruct (Dial_success _ _ _ _ _ _ H)
    as (_ & _ & req & r & k & rest & H1 & _ & _ & H4 & _ & _ & _ & H8).
  exists req, r, k, rest. repeat split; assumption.
Defined.

(** A device that has a client never panics in [Dial].  When [Dial] returns
    an error the device is left as it was and at most one request has gone
    out; the error is [already logged in] (nothing sent), the error of the URL
    parser (nothing sent), the error of the transport, [authentication failed]
    for a status other than 200, or [no cookies returned] for a 200 without
    cookies. *)
Theorem Dial_failure :
  forall (E : Env) (bt : BroadcastTools) (d : device) (t : nat),
    is_Some (c d) ->
    exists (d' : device) (e : option error) (t' : nat),
      Dial E bt d t = Ret ((d', e), t') /\
      forall err : error,
        e = Some err ->
        d' = d /\
        ((err = "already logged in" /\ is_Some (ck d) /\ t' = t) \/
         (ck d = None /\ t' = t /\
          exists u, url_Parse E u = Err err) \/
         (ck d = None /\ t' = S t /\
          exists req, RoundTrip E t req = Err err) \/
         (ck d = None /\ t' = S t /\ err = "authentication failed" /\
          exists req r, RoundTrip E t req = Ok r /\
                        http.StatusCode r <> http.StatusOK) \/
         (ck d = None /\ t' = S t /\ err = "no cookies returned" /\
          exists req r, RoundTrip E t req = Ok r /\
                        http.StatusCode r = http.StatusOK /\ http.Cookies r = [])).
Proof.
  intros E bt d t [cl Hc]. unfold Dial.
  destruct (ck d) as [k0|] eqn:Hck.
  { eexists _, _, _. split; [reflexivity|]. intros err H. inversion H; subst.
    split; [done|]. left. eauto. }
  unfold bind, send, send_request, NewRequest.
  destruct (url_Parse E _) as [u|e] eqn:Hu.
  - cbn. unfold Do. rewrite Hc.
    match goal with |- context [RoundTrip E t ?q] => set (req := q) end.
    destruct (RoundTrip E t req) as [r|e] eqn:Hr.
    + destruct (Z.eqb_spec (http.StatusCode r) http.StatusOK) as [Hst|Hst]; cbn [negb].
      * destruct (http.Cookies r) as [|k rest] eqn:Hcs.
        -- eexists _, _, _. split; [reflexivity|]. intros err H. inversion H; subst.
           split; [done|]. do 4 right. repeat split; try done. by exists req, r.
        -- eexists _, _, _. split; [reflexivity|]. intros err H. discriminate H.
      * eexists _, _, _. split; [reflexivity|]. intros err H. inversion H; subst.
        split; [done|]. do 3 right. left. repeat split; try done. by exists req, r.
    + eexists _, _, _. split; [reflexivity|]. intros err H. inversion H; subst.
      split; [done|]. do 2 right. left. repeat split; try done. by exists req.
  - cbn. eexists _, _, _. split; [reflexivity|]. intros err H. inversion H; subst.
    split; [done|]. right. left. repeat split; try done. eauto.
Qed.

Lemma Dial_failure_witness :
  is_Some (c (bench.fresh bench.localhost)) /\
  exists (d' : device) (e : option error) (t' : nat),
    Dial (bench.env bench.flaky) (bench.plugin []) (bench.fresh bench.localhost) 1%nat
      = Ret ((d', e), t') /\
    e = Some "authentication failed" /\ d' = bench.fresh bench.localhost.
Proof.
  assert (Hc : is_Some (c (bench.fresh bench.localhost))) by (by eexists).
  split; [exact Hc|].
  destruct (Dial_failure (bench.env bench.flaky) (bench.plugin [])
              (bench.fresh bench.localhost) 1%nat Hc) as (d' & e & t' & HD & Herr).
  exists d', e, t'. split; [exact HD|].
  assert (He : e = Some "authentication failed").
  { vm_compute in HD. by inversion HD. }
  split; [exact He|]. exact (proj1 (Herr _ He)).
Defined.

(** ** Polling *)

(** A request that needs the session cookie, on a device that has none:
    when the URL parses, adding the nil cookie is a nil dereference, in the
    poll as in [Close]; when it does not, the error of the parser comes back
    and nothing is sent. *)
Theorem cookie_needed :
  forall (E : Env) (d : device) (t : nat),
    ck d = None ->
    (forall u,
        url_Parse E (url.String_ (url.set_RawPath (base d)
                                    "/cgi-bin/getexchanger_monitor.cgi")) = Ok u ->
        device_poll E d t
        = Panic "runtime error: invalid memory address or nil pointer dereference") /\
    (forall e,
        url_Parse E (url.String_ (url.set_RawPath (base d)
                                    "/cgi-bin/getexchanger_monitor.cgi")) = Err e ->
        device_poll E d t = Ret (Err e, t)) /\
    (forall u,
        url_Parse E (url.String_ (url.set_RawPath (base d)
                                    "/cgi-bin/postlogout.cgi")) = Ok u ->
        Close E d t
        = Panic "runtime error: invalid memory address or nil pointer dereference") /\
    (forall e,
        url_Parse E (url.String_ (url.set_RawPath (base d)
                                    "/cgi-bin/postlogout.cgi")) = Err e ->
        Close E d t = Ret ((d, None), t)).
Proof.
  intros E d t Hck.
  repeat split; intros x Hx;
    unfold device_poll, Close, Close_body, bind, send, send_request, NewRequest;
    rewrite Hx; cbn; rewrite ?Hck; reflexivity.
Qed.

Lemma cookie_needed_witness :
  ck (bench.fresh bench.localhost) = None /\
  device_poll (bench.env bench.steady) (bench.fresh bench.localhost) 0%nat
  = Panic "runtime error: invalid memory address or nil pointer dereference".
Proof.
  split; [reflexivity|].
  exact (proj1 (cookie_needed (bench.env bench.steady) (bench.fresh bench.localhost)
                  0%nat eq_refl) bench.localhost eq_refl).
Defined.

(** A poll that returns nil has sent one GET carrying the session cookie,
    without body or content type; the answer had status 200 and a JSON object
    whose [values] entry is an object; and the accumulator has received one
    more call, [AddFields] under [broadcasttools] without tags, with the field
    map extracted from that object. *)
Theorem device_Gather_success :
  forall (E : Env) (d : device) (a a' : Accumulator) (t t' : nat),
    device_Gather E d a t = Ret ((a', None), t') ->
    t' = S t /\
    exists (k : http.Cookie) (req : http.Request) (r : http.Response)
           (data values fields : gmap string value),
      ck d = Some k /\
      http.Method req = http.MethodGet /\
      http.ReqCookies req = [k] /\
      http.ReqBody req = None /\
      http.Header req !! "Content-Type" = None /\
      RoundTrip E t req = Ok r /\
      http.StatusCode r = http.StatusOK /\
      Decode (http.Body r) = Ok data /\
      data !! "values" = Some (MapV values) /\
      Gather_entries E (range_values E values) values ∅ = Ret fields /\
      a' = (a ++ [AddFields "broadcasttools" fields None])%list.
Proof.
  intros E d a a' t t'. unfold device_Gather, device_poll, bind.
  destruct (send E d _ _ _ _ t) as [[res t1]|msg] eqn:Hs; [|done].
  apply send_inv in Hs as [(e & _ & -> & ->)|(req & Hreq & _ & -> & ->)];
    [by inversion 1|].
  destruct (RoundTrip E t req) as [r|e] eqn:Hr; [|by inversion 1].
  destruct (Z.eqb_spec (http.StatusCode r) http.StatusOK) as [Hst|Hst];
    cbn [negb]; [|by inversion 1].
  destruct (Decode (http.Body r)) as [data|e] eqn:Hd; [|by inversion 1].
  unfold map_index.
  destruct (data !! "values") as [[| | | | | |values]|] eqn:Hv; try done.
  cbn [as_map].
  destruct (Gather_entries E _ values ∅) as [fields|msg] eqn:Hg; [|done].
  unfold ret. intros H. inversion H; subst; clear H. split; [done|].
  destruct (send_request_inv _ _ _ _ _ _ _ Hreq) as (Hm & Hb & Hk & Hsome & Hh).
  destruct (Hsome eq_refl) as [k Hck]. rewrite Hck in Hk.
  exists k, req, r, data, values, fields. repeat split; done.
Qed.

Lemma device_Gather_success_witness :
  exists (a' : Accumulator) (fields : gmap string value),
    device_Gather (bench.env bench.steady) (bench.logged_in bench.localhost) [] 0%nat
      = Ret ((a', None), 1%nat) /\
    a' = ([] ++ [AddFields "broadcasttools" fields None])%list /\
    fields !! "temp_sensor_01" = Some (Int 72).
Proof.
  eassert (H : device_Gather (bench.env bench.steady)
                 (bench.logged_in bench.localhost) [] 0%nat
               = Ret ((_, None), 1%nat)) by (vm_compute; reflexivity).
  destruct (device_Gather_success _ _ _ _ _ _ H)
    as (_ & k & req & r & data & values & fields & _ & _ & _ & _ & _ & _ & _ & _ & _
        & _ & Ha).
  eexists _, fields. split; [exact H|]. split; [exact Ha|].
  inversion Ha. vm_compute. reflexivity.
Defined.

(** A poll that returns an error has left the accumulator as it was, and the
    error is the error of the URL parser (nothing sent), the error of the
    transport, the message [expected status 200; got N] for an answer of
    status N other than 200, or the error of the JSON decoder. *)
Theorem device_Gather_error :
  forall (E : Env) (d : device) (a a' : Accumulator) (err : error) (t t' : nat),
    device_Gather E d a t = Ret ((a', Some err), t') ->
    a' = a /\
    ((t' = t /\ exists u, url_Parse E u = Err err) \/
     (t' = S t /\ exists req, RoundTrip E t req = Err err) \/
     (t' = S t /\ exists req r,
         RoundTrip E t req = Ok r /\ http.StatusCode r <> http.StatusOK /\
         err = "expected status 200; got " ++ fmt.d (http.StatusCode r)) \/
     (t' = S t /\ exists req r,
         RoundTrip E t req = Ok r /\ http.StatusCode r = http.StatusOK /\
         Decode (http.Body r) = Err err)).
Proof.
  intros E d a a' err t t'. unfold device_Gather, device_poll, bind.
  destruct (send E d _ _ _ _ t) as [[res t1]|msg] eqn:Hs; [|done].
  apply send_inv in Hs as [(e & Hreq & -> & ->)|(req & Hreq & _ & -> & ->)].
  { unfold ret. intros H. inversion H; subst. split; [done|]. left. split; [done|].
    unfold send_request, NewRequest in Hreq.
    destruct (url_Parse E _) as [u|e'] eqn:Hu.
    - cbn in Hreq. destruct (http.AddCookie _ _); done.
    - inversion Hreq; subst. eauto. }
  destruct (RoundTrip E t req) as [r|e] eqn:Hr.
  - destruct (Z.eqb_spec (http.StatusCode r) http.StatusOK) as [Hst|Hst]; cbn [negb].
    + destruct (Decode (http.Body r)) as [data|e] eqn:Hd.
      * destruct (as_map _) as [values|msg]; [|done].
        destruct (Gather_entries E _ values ∅) as [fields|msg]; [|done].
        by inversion 1.
      * unfold ret. intros H. inversion H; subst. split; [done|].
        do 3 right. split; [done|]. by exists req, r.
    + unfold ret. intros H. inversion H; subst. split; [done|].
      do 2 right. left. split; [done|]. exists req, r. repeat split; done.
  - unfold ret. intros H. inversion H; subst. split; [done|].
    right. left. split; [done|]. by exists req.
Qed.

Lemma device_Gather_error_witness :
  device_Gather (bench.env bench.one_down)
    (bench.logged_in (bench.plain "http" "10.0.0.2")) [] 0%nat
  = Ret (([], Some "expected status 200; got 500"), 1%nat) /\
  ([] : Accumulator) = [].
Proof.
  assert (H : device_Gather (bench.env bench.one_down)
                (bench.logged_in (bench.plain "http" "10.0.0.2")) [] 0%nat
              = Ret (([], Some "expected status 200; got 500"), 1%nat))
    by (vm_compute; reflexivity).
  split; [exact H|].
  exact (proj1 (device_Gather_error _ _ _ _ _ _ _ H)).
Defined.

(** ** Extraction: entries written, entries skipped, panics *)

(** With at most one rule matching the key, the loop over the rules does
    what the matching rule alone does. *)
Lemma Gather_rules_select (E : Env) (l : list (regexp.Regexp * parser))
    (reg : regexp.Regexp) (p : parser) (values : gmap string value)
    (key : string) (name : value) (fields : gmap string value) :
  (length (matching key l) <= 1)%nat ->
  In (reg, p) l ->
  regexp.MatchString reg key = true ->
  Gather_rules E l values key name fields
  = Gather_rules E [(reg, p)] values key name fields.
Proof.
  induction l as [|x l IH]; intros Hm Hin Hr; [done|].
  destruct (matching_cons_le_1 key x l Hm) as [Hl Hx].
  destruct Hin as [->|Hin].
  - apply Gather_rules_cons_none. by apply Hx.
  - destruct (regexp.MatchString (fst x) key) eqn:Hmx.
    + specialize (Hx eq_refl). rewrite Forall_forall in Hx.
      apply list_elem_of_In in Hin.
      specialize (Hx (reg, p) Hin). simpl in Hx. congruence.
    + destruct x as [rx px]. rewrite Gather_rules_skip by done. by apply IH.
Qed.

Lemma Gather_rules_parsers_select (E : Env) (reg : regexp.Regexp) (p : parser)
    (values : gmap string value) (key ds : string) (name : value)
    (fields : gmap string value) :
  In (reg, p) parsers ->
  regexp.FindStringSubmatch reg key = [key; ds] ->
  Gather_rules E parsers values key name fields
  = match strconv.Atoi ds with
    | (_, Some _) => Ret fields
    | (index, None) =>
      match p values index with
      | Panic msg => Panic msg
      | Ret v =>
        match as_string name with
        | Panic msg => Panic msg
        | Ret label => Ret (<[keyify E label := v]> fields)
        end
      end
    end.
Proof.
  intros Hin Hm.
  rewrite (Gather_rules_select E parsers reg p);
    [|apply matching_parsers_le_1|done|by eapply FindStringSubmatch_match].
  cbn [Gather_rules]. rewrite Hm. cbn [length Nat.ltb Nat.leb nth].
  destruct (strconv.Atoi ds) as [index [e|]]; [done|].
  destruct (p values index) as [v|msg]; [|done].
  by destruct (as_string name).
Qed.

Lemma passthrough_parser (reg : regexp.Regexp) (companion : string) :
  In (reg, companion) passthrough ->
  exists p : parser,
    In (reg, p) parsers /\
    forall values index, p values index = Ret (map_index values (companion ++ fmt.d02 index)).
Proof.
  intros Hin. simpl in Hin.
  destruct Hin as [H|[H|[H|[H|[]]]]]; inversion H; subst.
  - exists parseMeter. split; [simpl; auto|done].
  - exists parseVC. split; [simpl; auto|done].
  - exists parseStatus. split; [simpl; auto 6|done].
  - exists parseRelay. split; [simpl; auto 6|done].
Qed.

(** The meter, VC-label, status and relay rules hand the companion value
    through as it is, whatever its type: the entry written under the
    normalised label holds the very value found under the companion key. *)
Theorem passthrough_entry :
  forall (E : Env) (values fields : gmap string value) (reg : regexp.Regexp)
         (companion key ds label : string) (index : Z) (v : value),
    In (reg, companion) passthrough ->
    regexp.FindStringSubmatch reg key = [key; ds] ->
    strconv.Atoi ds = (index, None) ->
    values !! (companion ++ fmt.d02 index) = Some v ->
    Gather_rules E parsers values key (Str label) fields
    = Ret (<[keyify E label := v]> fields).
Proof.
  intros E values fields reg companion key ds label index v Hin Hm Ha Hv.
  destruct (passthrough_parser reg companion Hin) as (p & Hp & Hpv).
  rewrite (Gather_rules_parsers_select E reg p values key ds) by done.
  rewrite Ha, Hpv. unfold map_index. by rewrite Hv.
Qed.

Lemma passthrough_entry_witness :
  Gather_rules (bench.env bench.steady) parsers bench.payload "S103" (Str "Door") ∅
  = Ret (<[keyify (bench.env bench.steady) "Door" := Bool true]> ∅).
Proof.
  apply (passthrough_entry (bench.env bench.steady) bench.payload ∅ regexpStatus
           "StatusIndicator" "S103" "03" "Door" 3 (Bool true)).
  - simpl. auto.
  - reflexivity.
  - reflexivity.
  - reflexivity.
Defined.

(** The temperature rule: with a string under the companion key, the entry
    written under the normalised label is the integer that [Atoi] makes of
    the string without its unit marker. *)
Theorem temperature_entry :
  forall (E : Env) (values fields : gmap string value)
         (key ds label s : string) (index : Z),
    regexp.FindStringSubmatch regexpTemp key = [key; ds] ->
    strconv.Atoi ds = (index, None) ->
    values !! ("TempValue" ++ fmt.d02 index) = Some (Str s) ->
    Gather_rules E parsers values key (Str label) fields
    = Ret (<[keyify E label
             := Int (fst (strconv.Atoi (strings.TrimSuffix s " *F")))]> fields).
Proof.
  intros E values fields key ds label s index Hm Ha Hv.
  rewrite (Gather_rules_parsers_select E regexpTemp parseTemp values key ds)
    by (simpl; auto).
  by rewrite Ha, (parseTemp_eq values index s Hv).
Qed.

Lemma temperature_entry_witness :
  Gather_rules (bench.env bench.steady) parsers bench.payload "T101"
    (Str "Temp Sensor 01") ∅
  = Ret (<[keyify (bench.env bench.steady) "Temp Sensor 01"
           := Int (fst (strconv.Atoi (strings.TrimSuffix "72 *F" " *F")))]> ∅).
Proof.
  apply (temperature_entry (bench.env bench.steady) bench.payload ∅
           "T101" "01" "Temp Sensor 01" "72 *F" 1); reflexivity.
Defined.

(** A key that matches a rule but whose digits do not fit an [int] is passed
    over: no entry is written and nothing fails. *)
Theorem index_out_of_range_skipped :
  forall (E : Env) (values fields : gmap string value) (reg : regexp.Regexp)
         (p : parser) (key ds : string) (name : value) (e : error),
    In (reg, p) parsers ->
    regexp.FindStringSubmatch reg key = [key; ds] ->
    snd (strconv.Atoi ds) = Some e ->
    Gather_rules E parsers values key name fields = Ret fields.
Proof.
  intros E values fields reg p key ds name e Hin Hm Ha.
  rewrite (Gather_rules_parsers_select E reg p values key ds) by done.
  destruct (strconv.Atoi ds) as [index [e'|]]; [done|discriminate Ha].
Qed.

Lemma index_out_of_range_skipped_witness :
  Gather_rules (bench.env bench.steady) parsers bench.payload
    "M199999999999999999999" (Str "Line In") ∅ = Ret ∅.
Proof.
  apply (index_out_of_range_skipped (bench.env bench.steady) bench.payload ∅
           regexpMeter parseMeter "M199999999999999999999" "99999999999999999999"
           (Str "Line In") strconv.ErrRange).
  - simpl. auto.
  - reflexivity.
  - reflexivity.
Defined.

(** A panic while an entry is processed does not depend on the fields
    gathered before it. *)
Lemma Gather_rules_panic_any_fields (E : Env) (l : list (regexp.Regexp * parser))
    (values : gmap string value) (key : string) (name : value)
    (f1 f2 : gmap string value) (msg : string) :
  Gather_rules E l values key name f1 = Panic msg ->
  Gather_rules E l values key name f2 = Panic msg.
Proof.
  revert f1 f2. induction l as [|[reg p] l IH]; intros f1 f2; [done|].
  cbn [Gather_rules].
  destruct (length (regexp.FindStringSubmatch reg key) <? 2)%nat; [apply IH|].
  destruct (strconv.Atoi _) as [index [e|]]; [apply IH|].
  destruct (p values index) as [v|m]; [|done].
  destruct (as_string name) as [label|m]; [|done].
  apply IH.
Qed.

(** An entry whose processing panics makes the whole loop panic, wherever
    the enumeration puts it. *)
Lemma Gather_entries_panics (E : Env) (entries : list (string * value))
    (values : gmap string value) (key : string) (name : value) (msg : string) :
  In (key, name) entries ->
  Gather_rules E parsers values key name ∅ = Panic msg ->
  forall fields, exists msg', Gather_entries E entries values fields = Panic msg'.
Proof.
  intros Hin Hp. induction entries as [|[k n] entries IH]; [done|].
  intros fields. cbn [Gather_entries].
  destruct (Gather_rules E parsers values k n fields) as [f'|m] eqn:Hk; [|eauto].
  destruct Hin as [Heq|Hin].
  - inversion Heq; subst.
    rewrite (Gather_rules_panic_any_fields E _ _ _ _ ∅ fields msg Hp) in Hk. done.
  - by apply IH.
Qed.

(** A payload entry whose key matches a rule, with an index in range, and
    whose value is not a string makes the extraction panic, in whatever order
    the entries are enumerated. *)
Theorem label_not_string_panics :
  forall (E : Env) (entries : list (string * value)) (values fields : gmap string value)
         (reg : regexp.Regexp) (p : parser) (key ds : string) (name : value)
         (index : Z),
    In (key, name) entries ->
    In (reg, p) parsers ->
    regexp.FindStringSubmatch reg key = [key; ds] ->
    strconv.Atoi ds = (index, None) ->
    (forall label, name <> Str label) ->
    exists msg, Gather_entries E entries values fields = Panic msg.
Proof.
  intros E entries values fields reg p key ds name index Hin Hp Hm Ha Hn.
  assert (exists msg, Gather_rules E parsers values key name ∅ = Panic msg) as [msg H].
  { rewrite (Gather_rules_parsers_select E reg p values key ds) by done. rewrite Ha.
    destruct (p values index) as [v|m]; [|eauto].
    destruct name; cbn; eauto. by destruct (Hn s). }
  by eapply Gather_entries_panics.
Qed.

Lemma label_not_string_panics_witness :
  exists msg,
    Gather_entries (bench.env bench.steady) [("S103", Bool true)] bench.payload ∅
    = Panic msg.
Proof.
  apply (label_not_string_panics (bench.env bench.steady) [("S103", Bool true)]
           bench.payload ∅ regexpStatus parseStatus "S103" "03" (Bool true) 3).
  - simpl. auto.
  - simpl. auto 6.
  - reflexivity.
  - reflexivity.
  - discriminate.
Defined.

(** A key matched by the temperature rule whose companion value is absent
    or is not a string makes the extraction panic as well. *)
Theorem temperature_companion_panics :
  forall (E : Env) (entries : list (string * value)) (values fields : gmap string value)
         (key ds : string) (name : value) (index : Z),
    In (key, name) entries ->
    regexp.FindStringSubmatch regexpTemp key = [key; ds] ->
    strconv.Atoi ds = (index, None) ->
    (forall s, values !! ("TempValue" ++ fmt.d02 index) <> Some (Str s)) ->
    exists msg, Gather_entries E entries values fields = Panic msg.
Proof.
  intros E entries values fields key ds name index Hin Hm Ha Hn.
  assert (exists msg, Gather_rules E parsers values key name ∅ = Panic msg) as [msg H].
  { rewrite (Gather_rules_parsers_select E regexpTemp parseTemp values key ds)
      by (simpl; auto).
    rewrite Ha. unfold parseTemp, map_index.
    destruct (values !! ("TempValue" ++ fmt.d02 index)) as [[]|] eqn:Hv; cbn; eauto.
    by destruct (Hn s). }
  by eapply Gather_entries_panics.
Qed.

Lemma temperature_companion_panics_witness :
  exists msg,
    Gather_entries (bench.env bench.steady) [("T107", Str "Rack")] bench.payload ∅
    = Panic msg.
Proof.
  apply (temperature_companion_panics (bench.env bench.steady) [("T107", Str "Rack")]
           bench.payload ∅ "T107" "07" (Str "Rack") 7).
  - simpl. auto.
  - reflexivity.
  - reflexivity.
  - intros s. vm_compute. discriminate.
Defined.

Lemma MatchString_inv (re : regexp.Regexp) (key : string) :
  regexp.MatchString re key = true ->
  exists ds, regexp.FindStringSubmatch re key = [key; ds].
Proof.
  unfold regexp.MatchString, regexp.FindStringSubmatch.
  destruct (strings.HasPrefix key (regexp.literal re)); [|done].
  destruct (string_drop _ key) as [|a rest]; [done|].
  destruct (string_forallb is_digit (String a rest)); [eauto|done].
Qed.

(** Processing one entry leaves the field map as it is or writes one entry
    into it, under the normalised label of a key that matches a rule. *)
Lemma Gather_rules_parsers_cases (E : Env) (values : gmap string value)
    (key : string) (name : value) (fields fields' : gmap string value) :
  Gather_rules E parsers values key name fields = Ret fields' ->
  fields' = fields \/
  exists label v, name = Str label /\ matching key parsers <> [] /\
                  fields' = <[keyify E label := v]> fields.
Proof.
  destruct (matching key parsers) as [|[reg p] rest] eqn:Hm.
  - rewrite Gather_rules_none by (by apply matching_nil_inv).
    intros H. inversion H. by left.
  - assert (Hin : In (reg, p) (matching key parsers)) by (rewrite Hm; by left).
    unfold matching in Hin. apply filter_In in Hin as [Hin Hr]. simpl in Hr.
    destruct (MatchString_inv reg key Hr) as [ds Hds].
    rewrite (Gather_rules_parsers_select E reg p values key ds) by done.
    destruct (strconv.Atoi ds) as [index [e|]]; [intros H; inversion H; by left|].
    destruct (p values index) as [v|m]; [|done].
    destruct name; cbn; try done.
    intros H. inversion H. right. by exists s, v.
Qed.

(** Every field that the extraction adds is named by the normalised label
    of a payload entry whose key matches a rule, and the extraction adds at
    most one field per payload entry. *)
Theorem fields_come_from_labels :
  forall (E : Env) (entries : list (string * value))
         (values fields0 fields : gmap string value),
    Gather_entries E entries values fields0 = Ret fields ->
    (forall k : string,
        is_Some (fields !! k) ->
        is_Some (fields0 !! k) \/
        exists key label, In (key, Str label) entries /\
                          matching key parsers <> [] /\ k = keyify E label) /\
    (size fields <= size fields0 + length entries)%nat.
Proof.
  intros E entries values. induction entries as [|[key name] entries IH];
    intros fields0 fields; cbn [Gather_entries].
  - intros H. inversion H; subst. split; [auto|simpl; lia].
  - destruct (Gather_rules E parsers values key name fields0) as [f1|m] eqn:H1; [|done].
    intros H. destruct (IH f1 fields H) as [Hk Hs].
    apply Gather_rules_parsers_cases in H1 as [->|(label & v & -> & Hm & ->)].
    + split; [|simpl; lia]. intros k Hsome.
      destruct (Hk k Hsome) as [?|(key' & label & Hin & Hm & ->)]; [by left|].
      right. exists key', label. split; [by right|done].
    + split.
      * intros k Hsome.
        destruct (Hk k Hsome) as [Hins|(key' & label' & Hin & Hm' & ->)].
        -- destruct (decide (keyify E label = k)) as [<-|Hne].
           ++ right. exists key, label. split; [by left|done].
           ++ left. by rewrite lookup_insert_ne in Hins.
        -- right. exists key', label'. split; [by right|done].
      * pose proof (map_size_insert (keyify E label) v fields0) as Hsz.
        destruct (fields0 !! keyify E label); unfold id in Hsz; simpl; lia.
Qed.

Lemma fields_come_from_labels_witness :
  exists fields : gmap string value,
    Gather_entries (bench.env bench.steady) [("S103", Str "Door"); ("Uptime", Nil)]
      bench.payload ∅ = Ret fields /\
    (size fields <= size (∅ : gmap string value)
                    + length [("S103", Str "Door"); ("Uptime", Nil)])%nat.
Proof.
  eassert (H : Gather_entries (bench.env bench.steady)
                 [("S103", Str "Door"); ("Uptime", Nil)] bench.payload ∅ = Ret _)
    by (vm_compute; reflexivity).
  eexists. split; [exact H|].
  exact (proj2 (fields_come_from_labels _ _ _ _ _ H)).
Defined.

(** Two payload entries whose labels have the same normal form write the
    same field: the one enumerated last overwrites the other, so the emitted
    value depends on the order of enumeration. *)
Theorem label_collision_last_wins :
  forall (E : Env) (values fields : gmap string value)
         (reg1 reg2 : regexp.Regexp) (p1 p2 : parser)
         (key1 key2 ds1 ds2 label1 label2 : string) (i1 i2 : Z) (v1 v2 : value),
    In (reg1, p1) parsers -> In (reg2, p2) parsers ->
    regexp.FindStringSubmatch reg1 key1 = [key1; ds1] ->
    regexp.FindStringSubmatch reg2 key2 = [key2; ds2] ->
    strconv.Atoi ds1 = (i1, None) -> strconv.Atoi ds2 = (i2, None) ->
    p1 values i1 = Ret v1 -> p2 values i2 = Ret v2 ->
    keyify E label1 = keyify E label2 ->
    Gather_entries E [(key1, Str label1); (key2, Str label2)] values fields
    = Ret (<[keyify E label2 := v2]> fields) /\
    Gather_entries E [(key2, Str label2); (key1, Str label1)] values fields
    = Ret (<[keyify E label1 := v1]> fields).
Proof.
  intros E values fields reg1 reg2 p1 p2 key1 key2 ds1 ds2 label1 label2 i1 i2 v1 v2
    Hin1 Hin2 Hm1 Hm2 Ha1 Ha2 Hp1 Hp2 Hk.
  cbn [Gather_entries].
  rewrite !(Gather_rules_parsers_select E reg1 p1 values key1 ds1) by done.
  rewrite !(Gather_rules_parsers_select E reg2 p2 values key2 ds2) by done.
  rewrite Ha1, Ha2, Hp1, Hp2. cbn [as_string].
  rewrite !(Gather_rules_parsers_select E reg1 p1 values key1 ds1) by done.
  rewrite !(Gather_rules_parsers_select E reg2 p2 values key2 ds2) by done.
  rewrite Ha1, Ha2, Hp1, Hp2. cbn [as_string].
  rewrite Hk. by rewrite !insert_insert_eq.
Qed.

Lemma label_collision_last_wins_witness :
  let E := bench.env bench.steady in
  let values : gmap string value :=
    <["M101" := Str "Line In"]> (<["MeterValue01" := Int 1]>
    (<["S101" := Str "line_in"]> (<["StatusIndicator01" := Int 2]> ∅))) in
  keyify E "Line In" = keyify E "line_in" /\
  Gather_entries E [("M101", Str "Line In"); ("S101", Str "line_in")] values ∅
  = Ret (<[keyify E "line_in" := Int 2]> ∅) /\
  Gather_entries E [("S101", Str "line_in"); ("M101", Str "Line In")] values ∅
  = Ret (<[keyify E "Line In" := Int 1]> ∅).
Proof.
  intros E values.
  assert (Hk : keyify E "Line In" = keyify E "line_in") by (vm_compute; reflexivity).
  split; [exact Hk|].
  apply (label_collision_last_wins E values ∅ regexpMeter regexpStatus
           parseMeter parseStatus "M101" "S101" "01" "01" "Line In" "line_in"
           1 1 (Int 1) (Int 2)).
  - simpl. auto.
  - simpl. auto 6.
  - vm_compute. reflexivity.
  - vm_compute. reflexivity.
  - vm_compute. reflexivity.
  - vm_compute. reflexivity.
  - vm_compute. reflexivity.
  - vm_compute. reflexivity.
  - exact Hk.
Defined.

(** A poll answered with a values object none of whose keys matches a rule
    still emits: the accumulator receives [AddFields] with the empty field
    map. *)
Theorem nothing_matches_emits_empty :
  forall (E : Env) (d : device) (a : Accumulator) (t t' : nat)
         (r : http.Response) (data values : gmap string value),
    send E d http.MethodGet "/cgi-bin/getexchanger_monitor.cgi" None true t
      = Ret (Ok r, t') ->
    http.StatusCode r = http.StatusOK ->
    Decode (http.Body r) = Ok data ->
    data !! "values" = Some (MapV values) ->
    (forall key name, In (key, name) (range_values E values) ->
                      matching key parsers = []) ->
    device_Gather E d a t
    = Ret (((a ++ [AddFields "broadcasttools" ∅ None])%list, None), t').
Proof.
  intros E d a t t' r data values Hs Hst Hd Hv Hnone.
  unfold device_Gather, device_poll, bind. rewrite Hs, Hst. cbn [Z.eqb negb].
  rewrite Hd. unfold map_index. rewrite Hv. cbn [as_map].
  assert (Hg : forall fields,
             Gather_entries E (range_values E values) values fields = Ret fields).
  { induction (range_values E values) as [|[key name] l IH]; intros fields; [done|].
    cbn [Gather_entries].
    rewrite Gather_rules_none
      by (apply matching_nil_inv, (Hnone key name); by left).
    apply IH. intros k n Hin. apply (Hnone k n). by right. }
  by rewrite Hg.
Qed.

Lemma nothing_matches_emits_empty_witness :
  device_Gather
    (bench.env (bench.answering (MapV (<["values" := MapV bench.unrelated]> ∅))))
    (bench.logged_in bench.localhost) [] 0%nat
  = Ret ((([] ++ [AddFields "broadcasttools" ∅ None])%list, None), 1%nat).
Proof.
  apply (nothing_matches_emits_empty
           (bench.env (bench.answering (MapV (<["values" := MapV bench.unrelated]> ∅))))
           (bench.logged_in bench.localhost) [] 0%nat 1%nat
           {| http.StatusCode := 200; http.Cookies := [];
              http.Body := http.JSON (MapV (<["values" := MapV bench.unrelated]> ∅)) |}
           (<["values" := MapV bench.unrelated]> ∅) bench.unrelated).
  - vm_compute. reflexivity.
  - reflexivity.
  - reflexivity.
  - vm_compute. reflexivity.
  - eassert (Hl : map_to_list bench.unrelated = _) by (vm_compute; reflexivity).
    intros key name Hin.
    change (In (key, name) (map_to_list bench.unrelated)) in Hin.
    rewrite Hl in Hin.
    destruct Hin as [H|[H|[]]]; inversion H; vm_compute; reflexivity.
Defined.

(** ** Field names *)

Lemma underscore_map_no_space (x : string) :
  string_existsb (Ascii.eqb " ") (string_map underscore_byte x) = false.
Proof.
  induction x as [|c x IH]; [done|]. cbn [string_map string_existsb].
  rewrite IH, orb_false_r. unfold underscore_byte.
  destruct (Ascii.eqb_spec c " ") as [->|Hne]; [done|].
  apply Ascii.eqb_neq. congruence.
Qed.

(** No field name that [keyify] produces holds a space, whatever the bytes
    of the label and whatever the case table. *)
Theorem keyify_no_space :
  forall (E : Env) (s : string),
    string_existsb (Ascii.eqb " ") (keyify E s) = false.
Proof.
  intros E s. unfold keyify. rewrite ReplaceAll_space.
  apply underscore_map_no_space.
Qed.

Lemma string_map_length (f : ascii -> ascii) (s : string) :
  String.length (string_map f s) = String.length s.
Proof. induction s as [|c s IH]; [done|]. cbn. by rewrite IH. Qed.

Lemma string_map_map (f g : ascii -> ascii) (s : string) :
  string_map f (string_map g s) = string_map (fun c => f (g c)) s.
Proof. induction s as [|c s IH]; [done|]. cbn [string_map]. by rewrite IH. Qed.

(** On a label made of ASCII bytes only, [keyify] works byte by byte and
    does not consult the case table: every capital letter is replaced by its
    small letter, every space by an underscore, and the length is kept. *)
Theorem keyify_ascii :
  forall (E : Env) (s : string),
    string_forallb (fun c => byte_val c <? 128) s = true ->
    keyify E s = string_map (fun c => underscore_byte (strings.ascii_lower c)) s /\
    String.length (keyify E s) = String.length s.
Proof.
  intros E s Ha.
  assert (Hk : keyify E s
               = string_map (fun c => underscore_byte (strings.ascii_lower c)) s).
  { unfold keyify. rewrite ReplaceAll_space. unfold strings.ToLower.
    change utf8.RuneSelf with 128. rewrite Ha.
    destruct (string_existsb is_upper s) eqn:Hu.
    - apply string_map_map.
    - rewrite <- (ascii_lower_no_upper s Hu) at 1. apply string_map_map. }
  split; [exact Hk|]. rewrite Hk. apply string_map_length.
Qed.

Lemma keyify_ascii_witness :
  string_forallb (fun c => byte_val c <? 128) "VC Label 7" = true /\
  keyify (bench.env bench.steady) "VC Label 7"
  = string_map (fun c => underscore_byte (strings.ascii_lower c)) "VC Label 7" /\
  String.length (keyify (bench.env bench.steady) "VC Label 7")
  = String.length "VC Label 7".
Proof.
  assert (Ha : string_forallb (fun c => byte_val c <? 128) "VC Label 7" = true)
    by reflexivity.
  split; [exact Ha|].
  exact (keyify_ascii (bench.env bench.steady) "VC Label 7" Ha).
Defined.

(** ** Initialisation, request by request *)

(** [Dial] sends at most one request; when it returns nil it has sent
    exactly one and the device holds a cookie, its client being as before. *)
Lemma Dial_clock (E : Env) (bt : BroadcastTools) (d d' : device)
    (e : option error) (t t' : nat) :
  Dial E bt d t = Ret ((d', e), t') ->
  (t' = t \/ t' = S t) /\
  (e = None -> t' = S t /\ is_Some (ck d') /\ c d' = c d).
Proof.
  intros H. destruct e as [err|].
  - split; [|done]. revert H. unfold Dial.
    destruct (ck d); [inversion 1; auto|]. unfold bind.
    destruct (send E d _ _ _ _ t) as [[res t1]|msg] eqn:Hs; [|done].
    apply send_inv in Hs as [(e & _ & -> & ->)|(req & _ & _ & -> & ->)];
      [inversion 1; auto|].
    destruct (RoundTrip E t req) as [r|e]; [|inversion 1; auto].
    destruct (negb _); [inversion 1; auto|].
    destruct (http.Cookies r); inversion 1; auto.
  - apply Dial_success_inv in H as (_ & -> & k & ->).
    split; [auto|]. intros _. split; [done|]. split; [by eexists|done].
Qed.

(** A device that has a client never panics in [Dial]. *)
Lemma Dial_total (E : Env) (bt : BroadcastTools) (d : device) (t : nat) :
  is_Some (c d) -> exists d' e t', Dial E bt d t = Ret ((d', e), t').
Proof.
  intros [cl Hc]. unfold Dial. destruct (ck d); [by eexists _, _, _|].
  unfold bind, send, send_request, NewRequest.
  destruct (url_Parse E _); cbn; [|by eexists _, _, _].
  unfold Do. rewrite Hc.
  match goal with |- context [RoundTrip E t ?q] => destruct (RoundTrip E t q) as [r|e] end;
    [|by eexists _, _, _].
  destruct (negb _); [by eexists _, _, _|].
  destruct (http.Cookies r); by eexists _, _, _.
Qed.

(** The loop of [init], request by request: it never panics; every device
    it appends holds a cookie; a run without error has sent one request per
    URL; a run that fails has sent one request per device dialled and at most
    one more, the one that failed. *)
Lemma init_loop_requests (E : Env) (us : list string) (bt : BroadcastTools) (t : nat) :
  exists (bt' : BroadcastTools) (e : option error) (t' : nat) (dialled : list device),
    init_loop E us bt t = Ret ((bt', e), t') /\
    devices bt' = (devices bt ++ dialled)%list /\
    Forall (fun d => is_Some (ck d)) dialled /\
    match e with
    | None => length dialled = length us /\ t' = (t + length us)%nat
    | Some _ => (length dialled < length us)%nat /\
                (t + length dialled <= t' <= t + length dialled + 1)%nat
    end.
Proof.
  revert bt t. induction us as [|u us IH]; intros bt t; cbn [init_loop].
  - exists (set_initialized bt true), None, t, []. cbn. rewrite app_nil_r.
    repeat split; [constructor|lia].
  - destruct (url_Parse E u) as [b|err].
    + unfold bind.
      destruct (Dial_total E bt {| base := b; c := Some http.ZeroClient; ck := None |} t)
        as (d' & e1 & t1 & HD); [by eexists|].
      rewrite HD. cbn [fst snd].
      destruct (Dial_clock _ _ _ _ _ _ _ HD) as [Ht Hok].
      destruct e1 as [err|].
      * exists bt, (Some err), t1, []. cbn. rewrite app_nil_r.
        repeat split; [constructor|lia|lia|lia].
      * destruct (Hok eq_refl) as (-> & Hck & _).
        destruct (IH (set_devices bt (devices bt ++ [d'])%list) (S t))
          as (bt' & e & t' & dialled & Hrun & Hd & Hf & He).
        exists bt', e, t', (d' :: dialled). rewrite Hrun. cbn in Hd.
        split; [done|]. split; [by rewrite Hd, <- app_assoc|].
        split; [by constructor|].
        destruct e; cbn [length]; lia.
    + exists bt, (Some err), t, []. cbn. rewrite app_nil_r.
      repeat split; [constructor|lia|lia|lia].
Qed.

(** An [init] that returns nil on a plugin not yet initialised has logged in
    once per configured URL, in order: the flag is set, the device list has
    grown by one device per URL, each holding a session cookie and the parsed
    address of its URL, and exactly that many requests have been sent. *)
Theorem init_success :
  forall (E : Env) (bt bt' : BroadcastTools) (t t' : nat),
    initialized bt = false ->
    init E bt t = Ret ((bt', None), t') ->
    initialized bt' = true /\
    URLs bt' = URLs bt /\
    t' = (t + length (URLs bt))%nat /\
    exists ds : list device,
      devices bt' = (devices bt ++ ds)%list /\
      dialled_from E (URLs bt) ds /\
      Forall (fun d => is_Some (ck d)) ds.
Proof.
  intros E bt bt' t t' Hi H. unfold init in H. rewrite Hi in H.
  destruct (init_loop_requests E (URLs bt) bt t)
    as (bt1 & e & t1 & ds & Hrun & Hd & Hf & He).
  rewrite H in Hrun. inversion Hrun; subst bt1 e t1. destruct He as [Hlen ->].
  apply init_loop_inv in H as (HU & ds' & Hd' & Hfrom & Hinit & Hlen').
  rewrite Hd in Hd'. apply app_inv_head in Hd'. subst ds'.
  rewrite Hlen', firstn_all in Hfrom.
  split; [done|]. split; [done|]. split; [done|]. by exists ds.
Qed.

Lemma init_success_witness :
  exists (bt' : BroadcastTools) (ds : list device),
    init (bench.env bench.steady) bench.two 0%nat = Ret ((bt', None), 2%nat) /\
    initialized bt' = true /\
    devices bt' = (devices bench.two ++ ds)%list /\
    Forall (fun d => is_Some (ck d)) ds.
Proof.
  eassert (H : init (bench.env bench.steady) bench.two 0%nat = Ret ((_, None), 2%nat))
    by (vm_compute; reflexivity).
  destruct (init_success (bench.env bench.steady) bench.two _ 0%nat 2%nat eq_refl H)
    as (Hi & _ & _ & ds & Hd & _ & Hf).
  eexists _, ds. split; [exact H|]. split; [exact Hi|]. split; [exact Hd|exact Hf].
Defined.

(** [init] never panics, whatever the parser and the network do.  When it
    fails it stops at once: one request has gone out per device dialled and
    at most one more, none for the URLs after the failing one; and [Gather]
    then returns the error of [init] without starting a goroutine or calling
    the accumulator, under every schedule. *)
Theorem init_fails_fast :
  forall (E : Env) (bt : BroadcastTools) (t : nat),
    exists (bt' : BroadcastTools) (e : option error) (t' : nat),
      init E bt t = Ret ((bt', e), t') /\
      forall err : error,
        e = Some err ->
        (length (devices bt') < length (devices bt) + length (URLs bt))%nat /\
        (t' <= t + (length (devices bt') - length (devices bt)) + 1)%nat /\
        forall (sched : list nat) (a : Accumulator),
          Gather E bt sched a t = Ret ((bt', a, Returned (Some err)), t').
Proof.
  intros E bt t. unfold init.
  destruct (initialized bt) eqn:Hi.
  { exists bt, None, t. split; [done|]. discriminate. }
  destruct (init_loop_requests E (URLs bt) bt t)
    as (bt' & e & t' & ds & Hrun & Hd & Hf & He).
  exists bt', e, t'. split; [done|]. intros err ->. destruct He as [Hlt Ht].
  rewrite Hd, length_app. split; [lia|]. split; [lia|].
  intros sched a. unfold Gather, init. rewrite Hi. cbn [negb]. by rewrite Hrun.
Qed.

Lemma init_fails_fast_witness :
  exists (bt' : BroadcastTools) (t' : nat),
    init (bench.env bench.flaky) bench.two 0%nat
      = Ret ((bt', Some "authentication failed"), t') /\
    (t' <= 0 + (length (devices bt') - length (devices bench.two)) + 1)%nat /\
    Gather (bench.env bench.flaky) bench.two [0; 1]%nat [] 0%nat
    = Ret ((bt', [], Returned (Some "authentication failed")), t').
Proof.
  destruct (init_fails_fast (bench.env bench.flaky) bench.two 0%nat)
    as (bt' & e & t' & Hi & Hfail).
  assert (He : e = Some "authentication failed").
  { assert (H : init (bench.env bench.flaky) bench.two 0%nat
                = Ret ((bench.half, Some "authentication failed"), 2%nat))
      by (vm_compute; reflexivity).
    rewrite H in Hi. by inversion Hi. }
  subst e. destruct (Hfail _ eq_refl) as (_ & Ht & HG).
  exists bt', t'. split; [exact Hi|]. split; [exact Ht|]. apply HG.
Defined.

(** The gather cycle whatever the outcome of the polls: on an initialised
    plugin none of whose polls panics, under every schedule that lets each
    goroutine finish, [Gather] returns nil and the accumulator has received
    exactly one call per device, be it [AddFields] or [AddError]; the plugin
    is as it was. *)
Theorem Gather_one_call_per_device :
  forall (E : Env) (bt : BroadcastTools) (sched : list nat) (a : Accumulator) (t : nat),
    initialized bt = true ->
    (forall (i : nat) (d : device) (t0 : nat),
        devices bt !! i = Some d ->
        exists r t1, device_poll E d t0 = Ret (r, t1)) ->
    complete sched (length (devices bt)) ->
    exists (calls : list acc_call) (t' : nat),
      Gather E bt sched a t = Ret ((bt, (a ++ calls)%list, Returned None), t') /\
      length calls = length (devices bt).
Proof.
  intros E bt sched a t Hinit Hpoll Hc.
  set (p0 := {| routines := Spawned <$> devices bt; acc := a; now := t |}).
  assert (Hrun : forall s p,
             (forall i d, routines p !! i = Some (Spawned d) -> devices bt !! i = Some d) ->
             exists p' calls, run E s p = Ret p' /\ acc p' = (acc p ++ calls)%list).
  { induction s as [|j s IH]; intros p Hp; cbn [run].
    - exists p, []. by rewrite app_nil_r.
    - assert (exists p1 c1, step E j p = Ret p1 /\ acc p1 = (acc p ++ c1)%list /\
                (forall i d, routines p1 !! i = Some (Spawned d) ->
                             devices bt !! i = Some d)) as (p1 & c1 & Hs & Ha & Hp1).
      { unfold step. destruct (routines p !! j) as [[d|[fields|err]|]|] eqn:Hj.
        - destruct (Hpoll j d (now p) (Hp j d Hj)) as (r & t1 & Hr). rewrite Hr.
          eexists _, []. split; [done|]. cbn. rewrite app_nil_r. split; [done|].
          intros i d0 Hi. destruct (decide (j = i)) as [<-|Hne].
          + rewrite list_lookup_insert_eq in Hi by (by eapply lookup_lt_Some). done.
          + rewrite list_lookup_insert_ne in Hi by done. by apply Hp.
        - eexists _, _. split; [done|]. cbn. split; [done|].
          intros i d0 Hi. destruct (decide (j = i)) as [<-|Hne].
          + rewrite list_lookup_insert_eq in Hi by (by eapply lookup_lt_Some). done.
          + rewrite list_lookup_insert_ne in Hi by done. by apply Hp.
        - eexists _, _. split; [done|]. cbn. split; [done|].
          intros i d0 Hi. destruct (decide (j = i)) as [<-|Hne].
          + rewrite list_lookup_insert_eq in Hi by (by eapply lookup_lt_Some). done.
          + rewrite list_lookup_insert_ne in Hi by done. by apply Hp.
        - exists p, []. by rewrite app_nil_r.
        - exists p, []. by rewrite app_nil_r. }
      rewrite Hs. destruct (IH p1 Hp1) as (p' & c2 & Hr & Ha').
      exists p', (c1 ++ c2)%list. split; [done|]. by rewrite Ha', Ha, app_assoc. }
  destruct (Hrun sched p0) as (p' & calls & Hr & Ha).
  { intros i d Hi. cbn in Hi. rewrite list_lookup_fmap in Hi.
    destruct (devices bt !! i); by inversion Hi. }
  pose proof (run_complete E sched (devices bt) a t p' Hc Hr) as Hall.
  destruct (Forall_Exited _ Hall) as [Hb Hcount].
  pose proof (run_calls E sched p0 p' Hr) as Hn. cbn in Hn.
  rewrite none_exited_at_start, Hcount in Hn.
  rewrite (run_length E sched p0 p' Hr) in Hn. cbn in Hn, Ha.
  rewrite length_fmap, Ha, length_app in Hn.
  exists calls, (now p'). split; [|lia].
  unfold Gather. rewrite Hinit. cbn [negb]. fold p0. by rewrite Hr, Hb, Ha.
Qed.

Lemma Gather_one_call_per_device_witness :
  exists (calls : list acc_call) (t' : nat),
    Gather (bench.env bench.one_down) bench.three [2; 1; 0; 0; 1; 2]%nat [] 0%nat
      = Ret ((bench.three, ([] ++ calls)%list, Returned None), t') /\
    length calls = length (devices bench.three).
Proof.
  apply (Gather_one_call_per_device (bench.env bench.one_down) bench.three
           [2; 1; 0; 0; 1; 2]%nat [] 0%nat).
  - reflexivity.
  - intros i d t0 Hd.
    destruct i as [|[|[|i]]]; cbn in Hd; try done; inversion Hd; subst d;
      eexists _, _; vm_compute; reflexivity.
  - intros i Hi. cbn in Hi. destruct i as [|[|[|i]]]; cbn; lia.
Defined.

(** A plugin without URLs and without devices: [Gather] returns nil at once
    under every schedule, sends nothing and calls the accumulator not at all;
    the only change is the flag, set by the first call. *)
Theorem Gather_nothing_configured :
  forall (E : Env) (bt : BroadcastTools) (sched : list nat) (a : Accumulator) (t : nat),
    URLs bt = [] ->
    devices bt = [] ->
    Gather E bt sched a t
    = Ret ((if initialized bt then bt else set_initialized bt true, a, Returned None), t).
Proof.
  intros E bt sched a t HU HD.
  assert (Hrun : run E sched {| routines := []; acc := a; now := t |}
                 = Ret {| routines := []; acc := a; now := t |}).
  { induction sched as [|j sched IH]; [done|]. cbn [run]. unfold step. cbn. exact IH. }
  unfold Gather, init. destruct (initialized bt) eqn:Hi; cbn [negb].
  - rewrite HD. cbn [fmap list_fmap]. by rewrite Hrun.
  - rewrite HU. cbn [init_loop ret set_initialized devices]. rewrite HD.
    cbn [fmap list_fmap]. by rewrite Hrun.
Qed.

Lemma Gather_nothing_configured_witness :
  Gather (bench.env bench.down) (bench.plugin []) [0; 1; 0]%nat [] 0%nat
  = Ret ((set_initialized (bench.plugin []) true, [], Returned None), 0%nat).
Proof.
  exact (Gather_nothing_configured (bench.env bench.down) (bench.plugin [])
           [0; 1; 0]%nat [] 0%nat eq_refl eq_refl).
Defined.
